(** * Scene layout extraction: the lane-waypoint graph of [scene_layout.py]

    A shallow embedding of [PythonAPI/carla/scene_layout.py]:
    [get_scene_layout] (topology sampling, lane markings, graph assembly)
    and the trigger-volume polygon of [get_dynamic_objects].

    Python objects that the code mutates ([carla.Transform]) live in an
    explicit heap; dictionaries keep Python's insertion order; the [while]
    loop of the sampler runs on fuel; Python exceptions are results. *)

From Stdlib Require Import List ZArith Lia Bool QArith Permutation Sorted.
Import ListNotations.
Local Open Scope Z_scope.

(** ** Python floats and the geometry of the client library *)

(** The arithmetic of Python floats, kept abstract: every statement below
    holds for whatever these operations compute. *)
Class PyFloat (F : Type) : Type := {
  fadd : F -> F -> F;          (* a + b *)
  fmul : F -> F -> F;          (* a * b *)
  fneg : F -> F;               (* -a *)
  fltb : F -> F -> bool;       (* a < b *)
  float_lit : Q -> F           (* a numeric literal, as a float *)
}.

Section Geometry.
Context {F : Type} `{PyFloat F}.

Record Vector3D : Type := { x : F; y : F; z : F }.

(** [carla.Location] derives from [carla.Vector3D]. *)
Definition Location : Type := Vector3D.

Record Rotation : Type := { pitch : F; yaw : F; roll : F }.

Record Transform : Type := { location : Location; rotation : Rotation }.

Record GeoLocation : Type := { latitude : F; longitude : F; altitude : F }.

(** [Location + Vector3D] and [float * Vector3D]. *)
Definition vadd (a b : Vector3D) : Vector3D :=
  {| x := fadd (x a) (x b); y := fadd (y a) (y b); z := fadd (z a) (z b) |}.

Definition vscale (k : F) (v : Vector3D) : Vector3D :=
  {| x := fmul k (x v); y := fmul k (y v); z := fmul k (z v) |}.

(** [t.rotation.yaw = v], the other five coordinates untouched. *)
Definition set_yaw (t : Transform) (v : F) : Transform :=
  {| location := location t;
     rotation := {| pitch := pitch (rotation t); yaw := v;
                    roll := roll (rotation t) |} |}.

End Geometry.

Arguments Vector3D F : clear implicits.
Arguments Location F : clear implicits.
Arguments Rotation F : clear implicits.
Arguments Transform F : clear implicits.
Arguments GeoLocation F : clear implicits.

(** The methods of [carla.Transform] the module calls. *)
Class Geometry (F : Type) : Type := {
  get_forward_vector : Transform F -> Vector3D F;
  transform_point : Transform F -> Location F -> Location F
}.

(** ** Results, exceptions and the heap monad *)

Inductive exn : Type := IndexError | KeyError | DanglingReference.

Inductive result (A : Type) : Type :=
| Ok (a : A)
| Raise (e : exn)
| OutOfFuel.

Arguments Ok {A} a.
Arguments Raise {A} e.
Arguments OutOfFuel {A}.

Definition rbind {A B} (r : result A) (k : A -> result B) : result B :=
  match r with
  | Ok a => k a
  | Raise e => Raise e
  | OutOfFuel => OutOfFuel
  end.

Module Dict.
(** A Python [dict]: keys in insertion order, each key once. *)
Section Dict.
Context {V : Type}.

Definition t : Type := list (Z * V).

Fixpoint get (k : Z) (d : t) : option V :=
  match d with
  | [] => None
  | (k', v) :: d' => if k =? k' then Some v else get k d'
  end.

(** [d[k] = v]: an existing key keeps its place, a new one goes last. *)
Fixpoint set (k : Z) (v : V) (d : t) : t :=
  match d with
  | [] => [(k, v)]
  | (k', v') :: d' => if k =? k' then (k, v) :: d' else (k', v') :: set k v d'
  end.

Definition keys (d : t) : list Z := map fst d.

Definition mem (k : Z) (d : t) : bool :=
  match get k d with Some _ => true | None => false end.

End Dict.
Arguments t V : clear implicits.
End Dict.

(** ** The model of [get_scene_layout] *)

Section SceneLayout.
Context {F : Type} `{PyFloat F} `{Geometry F}.

(** *** Objects *)

(** The heap of [carla.Transform] objects of the Python process; a
    reference is an index into it. *)
Definition Heap : Type := list (Transform F).
Definition ref : Type := nat.

(** A computation that reads and writes the heap and may fail. *)
Definition M (A : Type) : Type := Heap -> result (A * Heap).

Definition ret {A} (a : A) : M A := fun h => Ok (a, h).

Definition bind {A B} (c : M A) (k : A -> M B) : M B :=
  fun h => match c h with
           | Ok (a, h') => k a h'
           | Raise e => Raise e
           | OutOfFuel => OutOfFuel
           end.

Definition lift {A} (r : result A) : M A :=
  fun h => match r with
           | Ok a => Ok (a, h)
           | Raise e => Raise e
           | OutOfFuel => OutOfFuel
           end.

Definition raise {A} (e : exn) : M A := fun _ => Raise e.

Notation "x <- c ;; k" := (bind c (fun x => k))
  (at level 61, c at next level, right associativity).
Notation "c ;;; k" := (bind c (fun _ => k))
  (at level 61, right associativity).

Definition alloc (t : Transform F) : M ref :=
  fun h => Ok (length h, h ++ [t]).

Definition load (r : ref) : M (Transform F) :=
  fun h => match nth_error h r with
           | Some t => Ok (t, h)
           | None => Raise DanglingReference
           end.

Fixpoint update (h : Heap) (r : ref) (t : Transform F) : Heap :=
  match h, r with
  | [], _ => []
  | _ :: h', O => t :: h'
  | t0 :: h', S r' => t0 :: update h' r' t
  end.

Definition store (r : ref) (t : Transform F) : M unit :=
  fun h => match nth_error h r with
           | Some _ => Ok (tt, update h r t)
           | None => Raise DanglingReference
           end.

(** A list comprehension [[f(a) for a in l]]. *)
Fixpoint mapM {A B} (f : A -> M B) (l : list A) : M (list B) :=
  match l with
  | [] => ret []
  | a :: l' => b <- f a ;; bs <- mapM f l' ;; ret (b :: bs)
  end.

(** A [for] loop that updates one local variable. *)
Fixpoint foldM {A B} (f : B -> A -> M B) (l : list A) (b : B) : M B :=
  match l with
  | [] => ret b
  | a :: l' => b' <- f b a ;; foldM f l' b'
  end.

(** [l[i]] and [d[k]]. *)
Definition index {A} (l : list A) (i : nat) : M A :=
  match nth_error l i with
  | Some a => ret a
  | None => raise IndexError
  end.

Definition lookup {V} (k : Z) (d : Dict.t V) : M V :=
  match Dict.get k d with
  | Some v => ret v
  | None => raise KeyError
  end.

(** A [carla.Waypoint]: what the map service knows of a sampled point.
    Python code cannot assign its attributes. *)
Record Waypoint : Type := {
  wp_id : Z;
  wp_road_id : Z;
  wp_lane_id : Z;
  wp_lane_width : F;
  wp_pose : Transform F
}.

(** Modelled from the spec: the getter of the property
    [Waypoint.transform], which belongs to the client library's binding
    and is not part of this module. A pose is "produced by the map/world
    service; immutable once read" and a waypoint is "never mutated after
    creation": every read hands out a new [Transform] object that holds
    the waypoint's pose. *)
Definition transform (w : Waypoint) : M ref := alloc (wp_pose w).

(** The map service: [carla_map.get_topology()], [waypoint.next(d)] and
    [carla_map.transform_to_geolocation(p)]. *)
Record Map : Type := {
  get_topology : list (Waypoint * Waypoint);
  next : Waypoint -> F -> list Waypoint;
  transform_to_geolocation : Location F -> GeoLocation F
}.

(** *** Lines 34-37 *)

Definition _lateral_shift (transform : ref) (shift : F) : M (Location F) :=
  t <- load transform ;;
  store transform (set_yaw t (fadd (yaw (rotation t)) (float_lit 90))) ;;;
  t' <- load transform ;;
  ret (vadd (location t') (vscale shift (get_forward_vector t'))).

(** *** Lines 40-41: the seeds, sorted by elevation *)

(** Python's built-in [sorted(l, key=...)]: the keys are computed once,
    in order; the sort is stable and compares keys with [<]. An element
    is inserted before the first that is not strictly below it, so equal
    keys keep the order of the input. *)
Fixpoint insert_by_key {A} (a : F * A) (l : list (F * A)) : list (F * A) :=
  match l with
  | [] => [a]
  | b :: l' => if fltb (fst b) (fst a) then b :: insert_by_key a l' else a :: l
  end.

Definition sort_by_key {A} (l : list (F * A)) : list (F * A) :=
  fold_right insert_by_key [] l.

Definition sorted {A} (l : list A) (key : A -> M F) : M (list A) :=
  ks <- mapM key l ;;
  ret (map snd (sort_by_key (combine ks l))).

Definition elevation (w : Waypoint) : M F :=
  r <- transform w ;; t <- load r ;; ret (z (location t)).

Definition seeds (carla_map : Map) : M (list Waypoint) :=
  let topology := map fst (get_topology carla_map) in
  sorted topology elevation.

(** *** Lines 45-53: the sampler *)

Definition precision : F := float_lit (5 # 100).

(** The [while] loop, entered with [nxt] and [waypoints] as they are at
    the test; one unit of fuel per iteration. *)
Fixpoint walk (fuel : nat) (carla_map : Map) (waypoint : Waypoint)
    (nxt : list Waypoint) (waypoints : list Waypoint) : result (list Waypoint) :=
  match nxt with
  | [] => Ok waypoints
  | nxt0 :: _ =>
      if wp_road_id nxt0 =? wp_road_id waypoint then
        match fuel with
        | O => OutOfFuel
        | S fuel' =>
            walk fuel' carla_map waypoint (next carla_map nxt0 precision)
                 (waypoints ++ [nxt0])
        end
      else Ok waypoints
  end.

Definition sample (fuel : nat) (carla_map : Map) (waypoint : Waypoint)
    : result (list Waypoint) :=
  walk fuel carla_map waypoint (next carla_map waypoint precision) [waypoint].

(** *** Lines 56-63: the lane record and its place in [map_dict] *)

Record Lane : Type := {
  waypoints : list Waypoint;
  left_marking : list (Location F);
  right_marking : list (Location F)
}.

Definition RoadGroup : Type := Dict.t Lane.
Definition MapDict : Type := Dict.t RoadGroup.

Definition half : F := float_lit (5 # 10).

Definition markings (ws : list Waypoint)
    : M (list (Location F) * list (Location F)) :=
  left_marking <-
    mapM (fun w => t <- transform w ;;
                   _lateral_shift t (fmul (fneg (wp_lane_width w)) half)) ws ;;
  right_marking <-
    mapM (fun w => t <- transform w ;;
                   _lateral_shift t (fmul (wp_lane_width w) half)) ws ;;
  ret (left_marking, right_marking).

(** The body of the loop over the seeds. *)
Definition sample_lane (fuel : nat) (carla_map : Map) (map_dict : MapDict)
    (waypoint : Waypoint) : M MapDict :=
  ws <- lift (sample fuel carla_map waypoint) ;;
  lr <- markings ws ;;
  let lane := {| waypoints := ws; left_marking := fst lr;
                 right_marking := snd lr |} in
  let map_dict :=
    match Dict.get (wp_road_id waypoint) map_dict with
    | None => Dict.set (wp_road_id waypoint) [] map_dict
    | Some _ => map_dict
    end in
  group <- lookup (wp_road_id waypoint) map_dict ;;
  ret (Dict.set (wp_road_id waypoint)
                (Dict.set (wp_lane_id waypoint) lane group) map_dict).

Definition build_map_dict (fuel : nat) (carla_map : Map) : M MapDict :=
  topology <- seeds carla_map ;;
  foldM (sample_lane fuel carla_map) topology [].

(** *** Lines 66-111: the waypoint graph *)

(** The dictionary stored for one waypoint. *)
Record NodeRecord : Type := {
  road_id : Z;
  lane_id : Z;
  position : list F;
  orientation : list F;
  left_margin_position : list F;
  right_margin_position : list F;
  next_waypoints_ids : list Z;
  left_lane_waypoint_id : Z;
  right_lane_waypoint_id : Z
}.

Definition Graph : Type := Dict.t NodeRecord.

(** Truth value of a Python [int]. *)
Definition truthy (n : Z) : bool := negb (n =? 0).

(** Lines 75 and 76. *)
Definition left_lane_key (lane_key : Z) : Z :=
  if truthy (lane_key - 1) then lane_key - 1 else lane_key - 2.

Definition right_lane_key (lane_key : Z) : Z :=
  if truthy (lane_key + 1) then lane_key + 1 else lane_key + 2.

(** Lines 79-83 and 85-89: the waypoint at index [i] of the lane
    [neighbour_key] of the road group, or -1. *)
Definition neighbour_waypoint_id (group : RoadGroup) (neighbour_key : Z)
    (i : nat) : M Z :=
  let waypoint_id := -1 in
  if Dict.mem neighbour_key group then
    neighbour <- lookup neighbour_key group ;;
    let neighbour_waypoints := waypoints neighbour in
    if (i <? length neighbour_waypoints)%nat then
      w <- index neighbour_waypoints i ;; ret (wp_id w)
    else ret waypoint_id
  else ret waypoint_id.

Definition geo_list (g : GeoLocation F) : list F :=
  [latitude g; longitude g; altitude g].

(** The body of the loop over [i]; [map_dict] is not assigned while the
    graph is built, so [map_dict[road_key]] is read once per iteration. *)
Definition add_node (carla_map : Map) (map_dict : MapDict)
    (road_key lane_key : Z) (lane : Lane) (waypoints_graph : Graph) (i : nat)
    : M Graph :=
  group <- lookup road_key map_dict ;;
  let next_ids := map wp_id (skipn (i + 1) (waypoints lane)) in
  left_lane_waypoint_id <-
    neighbour_waypoint_id group (left_lane_key lane_key) i ;;
  right_lane_waypoint_id <-
    neighbour_waypoint_id group (right_lane_key lane_key) i ;;
  l <- index (left_marking lane) i ;;
  let lm := transform_to_geolocation carla_map l in
  r <- index (right_marking lane) i ;;
  let rm := transform_to_geolocation carla_map r in
  w <- index (waypoints lane) i ;;
  t <- transform w ;;
  tl <- load t ;;
  let wl := transform_to_geolocation carla_map (location tl) in
  w' <- index (waypoints lane) i ;;
  t' <- transform w' ;;
  to <- load t' ;;
  let wo := rotation to in
  let waypoint_dict :=
    {| road_id := road_key;
       lane_id := lane_key;
       position := geo_list wl;
       orientation := [roll wo; pitch wo; yaw wo];
       left_margin_position := geo_list lm;
       right_margin_position := geo_list rm;
       next_waypoints_ids := next_ids;
       left_lane_waypoint_id := left_lane_waypoint_id;
       right_lane_waypoint_id := right_lane_waypoint_id |} in
  group' <- lookup road_key map_dict ;;
  lane' <- lookup lane_key group' ;;
  w'' <- index (waypoints lane') i ;;
  ret (Dict.set (wp_id w'') waypoint_dict waypoints_graph).

Definition add_lane (carla_map : Map) (map_dict : MapDict) (road_key : Z)
    (waypoints_graph : Graph) (lane_key : Z) : M Graph :=
  group <- lookup road_key map_dict ;;
  lane <- lookup lane_key group ;;
  foldM (add_node carla_map map_dict road_key lane_key lane)
        (seq 0 (length (waypoints lane))) waypoints_graph.

Definition add_road (carla_map : Map) (map_dict : MapDict)
    (waypoints_graph : Graph) (road_key : Z) : M Graph :=
  group <- lookup road_key map_dict ;;
  foldM (add_lane carla_map map_dict road_key) (Dict.keys group)
        waypoints_graph.

Definition build_graph (carla_map : Map) (map_dict : MapDict) : M Graph :=
  foldM (add_road carla_map map_dict) (Dict.keys map_dict) [].

Definition get_scene_layout (fuel : nat) (carla_map : Map) : M Graph :=
  map_dict <- build_map_dict fuel carla_map ;;
  build_graph carla_map map_dict.

(** ** The trigger volume of [get_dynamic_objects] (lines 132-142) *)

(** [carla.BoundingBox] and what the module reads of an actor. *)
Record BoundingBox : Type := { bb_location : Location F; extent : Vector3D F }.

Record Actor : Type := {
  actor_id : Z;
  trigger_volume : BoundingBox;
  get_transform : Transform F
}.

(** [carla.Location(x=a, y=b)]; [z] defaults to 0. *)
Definition Location_xy (a b : F) : Location F :=
  {| x := a; y := b; z := float_lit 0 |}.

(** Line 138 builds five new [Location] objects, so [t.transform(corners)],
    which moves each element of the list in place, moves each corner
    once. *)
Definition _get_trigger_volume (carla_map : Map) (actor : Actor)
    : list (GeoLocation F) :=
  let bb := extent (trigger_volume actor) in
  let corners :=
    [Location_xy (fneg (x bb)) (fneg (y bb)); Location_xy (x bb) (fneg (y bb));
     Location_xy (x bb) (y bb); Location_xy (fneg (x bb)) (y bb);
     Location_xy (fneg (x bb)) (fneg (y bb))] in
  let corners := map (fun c => vadd c (bb_location (trigger_volume actor)))
                     corners in
  let t := get_transform actor in
  let corners := map (transform_point t) corners in
  map (transform_to_geolocation carla_map) corners.

(** The ["trigger_volume"] entry of a stop sign or a traffic light
    (lines 177 and 191). *)
Definition trigger_volume_field (carla_map : Map) (actor : Actor)
    : list (list F) :=
  map (fun v => [longitude v; latitude v; altitude v])
      (_get_trigger_volume carla_map actor).

(** ** What the computations return *)

(** [c] returns [r] from every heap and leaves the objects it found in
    the heap as they were: it only allocates. *)
Definition computes {A} (c : M A) (r : result A) : Prop :=
  forall h, exists fresh, c h = lift r (h ++ fresh).

Fixpoint rfold {A B} (f : B -> A -> result B) (l : list A) (b : B)
    : result B :=
  match l with
  | [] => Ok b
  | a :: l' => rbind (f b a) (rfold f l')
  end.

Definition rmap {A B} (f : A -> B) (r : result A) : result B :=
  rbind r (fun a => Ok (f a)).

(** The pose after [yaw += 90] and the value of [_lateral_shift] on a
    transform object that holds [p]. *)
Definition quarter_turn (p : Transform F) : Transform F :=
  set_yaw p (fadd (yaw (rotation p)) (float_lit 90)).

Definition shifted (p : Transform F) (shift : F) : Location F :=
  vadd (location p) (vscale shift (get_forward_vector (quarter_turn p))).

Definition left_of (w : Waypoint) : Location F :=
  shifted (wp_pose w) (fmul (fneg (wp_lane_width w)) half).

Definition right_of (w : Waypoint) : Location F :=
  shifted (wp_pose w) (fmul (wp_lane_width w) half).

Definition lane_of (ws : list Waypoint) : Lane :=
  {| waypoints := ws; left_marking := map left_of ws;
     right_marking := map right_of ws |}.

Definition elevation_of (w : Waypoint) : F := z (location (wp_pose w)).

Definition seeds_of (carla_map : Map) : list Waypoint :=
  let topology := map fst (get_topology carla_map) in
  map snd (sort_by_key (combine (map elevation_of topology) topology)).

Definition put_lane (map_dict : MapDict) (waypoint : Waypoint) (lane : Lane)
    : MapDict :=
  let group := match Dict.get (wp_road_id waypoint) map_dict with
               | Some g => g
               | None => []
               end in
  Dict.set (wp_road_id waypoint) (Dict.set (wp_lane_id waypoint) lane group)
           map_dict.

Definition map_dict_of (fuel : nat) (carla_map : Map) : result MapDict :=
  rfold (fun map_dict waypoint =>
           rbind (sample fuel carla_map waypoint)
                 (fun ws => Ok (put_lane map_dict waypoint (lane_of ws))))
        (seeds_of carla_map) [].

Definition neighbour_id_of (group : RoadGroup) (neighbour_key : Z) (i : nat)
    : Z :=
  match Dict.get neighbour_key group with
  | Some neighbour =>
      match nth_error (waypoints neighbour) i with
      | Some w => wp_id w
      | None => -1
      end
  | None => -1
  end.

Definition node_of (carla_map : Map) (group : RoadGroup)
    (road_key lane_key : Z) (ws : list Waypoint) (i : nat) (w : Waypoint)
    : NodeRecord :=
  {| road_id := road_key;
     lane_id := lane_key;
     position :=
       geo_list (transform_to_geolocation carla_map (location (wp_pose w)));
     orientation := [roll (rotation (wp_pose w)); pitch (rotation (wp_pose w));
                     yaw (rotation (wp_pose w))];
     left_margin_position :=
       geo_list (transform_to_geolocation carla_map (left_of w));
     right_margin_position :=
       geo_list (transform_to_geolocation carla_map (right_of w));
     next_waypoints_ids := map wp_id (skipn (i + 1) ws);
     left_lane_waypoint_id := neighbour_id_of group (left_lane_key lane_key) i;
     right_lane_waypoint_id :=
       neighbour_id_of group (right_lane_key lane_key) i |}.

(** The records in the order the three loops store them. *)
Fixpoint lane_nodes (carla_map : Map) (group : RoadGroup)
    (road_key lane_key : Z) (ws : list Waypoint) (i : nat)
    (rest : list Waypoint) : list (Z * NodeRecord) :=
  match rest with
  | [] => []
  | w :: rest' =>
      (wp_id w, node_of carla_map group road_key lane_key ws i w)
        :: lane_nodes carla_map group road_key lane_key ws (S i) rest'
  end.

Definition road_nodes (carla_map : Map) (road_key : Z) (group : RoadGroup)
    : list (Z * NodeRecord) :=
  flat_map (fun kl => lane_nodes carla_map group road_key (fst kl)
                                 (waypoints (snd kl)) 0 (waypoints (snd kl)))
           group.

Definition all_nodes (carla_map : Map) (map_dict : MapDict)
    : list (Z * NodeRecord) :=
  flat_map (fun kg => road_nodes carla_map (fst kg) (snd kg)) map_dict.

Definition store_all (nodes : list (Z * NodeRecord)) (g : Graph) : Graph :=
  fold_left (fun g kn => Dict.set (fst kn) (snd kn) g) nodes g.

Definition graph_of (carla_map : Map) (map_dict : MapDict) : Graph :=
  store_all (all_nodes carla_map map_dict) [].

(** The waypoints of every lane of every road group. *)
Definition sampled_waypoints (map_dict : MapDict) : list Waypoint :=
  flat_map (fun kg => flat_map (fun kl => waypoints (snd kl)) (snd kg))
           map_dict.

(** The walk of section 4.1, in the spec's words: from [w], the waypoints
    appended after it. The first candidate of the query is appended while
    it is on the road; an empty query or a candidate on another road ends
    the walk. *)
Inductive Walk (carla_map : Map) (road : Z) : Waypoint -> list Waypoint -> Prop :=
| Walk_end_of_network w :
    next carla_map w precision = [] -> Walk carla_map road w []
| Walk_road_change w n others :
    next carla_map w precision = n :: others -> wp_road_id n <> road ->
    Walk carla_map road w []
| Walk_append w n others tail :
    next carla_map w precision = n :: others -> wp_road_id n = road ->
    Walk carla_map road n tail -> Walk carla_map road w (n :: tail).

(** A dictionary as Python keeps it: no key twice. *)
Definition well_keyed {V} (d : Dict.t V) : Prop := NoDup (Dict.keys d).

(** What the first loop establishes of [map_dict]. *)
Definition lane_built (fuel : nat) (carla_map : Map) (road_key lane_key : Z)
    (lane : Lane) : Prop :=
  exists seed,
    In seed (map fst (get_topology carla_map)) /\
    wp_road_id seed = road_key /\ wp_lane_id seed = lane_key /\
    sample fuel carla_map seed = Ok (waypoints lane) /\
    lane = lane_of (waypoints lane).

Definition map_dict_built (fuel : nat) (carla_map : Map) (map_dict : MapDict)
    : Prop :=
  well_keyed map_dict /\
  forall road_key group, In (road_key, group) map_dict ->
    well_keyed group /\
    forall lane_key lane, In (lane_key, lane) group ->
      lane_built fuel carla_map road_key lane_key lane.


(** What [get_scene_layout] returns. *)
Definition layout_of (fuel : nat) (carla_map : Map) : result Graph :=
  rmap (graph_of carla_map) (map_dict_of fuel carla_map).

(** [v] is the identity of the waypoint at index [i] of the lane [key] of
    the road group when the group has that lane and the lane has that
    index, and the sentinel -1 otherwise. *)
Definition neighbour_or_sentinel (group : RoadGroup) (key : Z) (i : nat)
    (v : Z) : Prop :=
  (forall neighbour n,
     Dict.get key group = Some neighbour ->
     nth_error (waypoints neighbour) i = Some n -> v = wp_id n) /\
  (Dict.get key group = None -> v = -1) /\
  (forall neighbour,
     Dict.get key group = Some neighbour ->
     (length (waypoints neighbour) <= i)%nat -> v = -1).

(** Every record with a left neighbour refers to a key of the graph whose
    record is on the resolved left lane. *)
Definition left_references_resolve (g : Graph) : Prop :=
  forall k node,
    Dict.get k g = Some node ->
    left_lane_waypoint_id node <> -1 ->
    exists node',
      Dict.get (left_lane_waypoint_id node) g = Some node' /\
      lane_id node' = left_lane_key (lane_id node).

(** ** The heap monad *)

Lemma nth_error_fresh (h : Heap) (t : Transform F) :
  nth_error (h ++ [t]) (length h) = Some t.
Proof.
  rewrite nth_error_app2 by lia. now rewrite Nat.sub_diag.
Qed.

Lemma update_fresh (h : Heap) (t t' : Transform F) :
  update (h ++ [t]) (length h) t' = h ++ [t'].
Proof.
  induction h as [|a h IH]; simpl; [reflexivity | now rewrite IH].
Qed.

Lemma computes_ret {A} (a : A) : computes (ret a) (Ok a).
Proof. intros h. exists []. now rewrite app_nil_r. Qed.

Lemma computes_lift {A} (r : result A) : computes (lift r) r.
Proof. intros h. exists []. now rewrite app_nil_r. Qed.

Lemma computes_bind {A B} (c : M A) (k : A -> M B) r k' :
  computes c r ->
  (forall a, r = Ok a -> computes (k a) (k' a)) ->
  computes (bind c k) (rbind r k').
Proof.
  intros Hc Hk h. destruct (Hc h) as [f1 E1]. unfold bind. rewrite E1.
  destruct r as [a| |]; simpl; try (now exists []).
  destruct (Hk a eq_refl (h ++ f1)) as [f2 E2]. exists (f1 ++ f2).
  now rewrite E2, app_assoc.
Qed.

Lemma computes_lookup {V} (k : Z) (d : Dict.t V) (v : V) :
  Dict.get k d = Some v -> computes (lookup k d) (Ok v).
Proof. intros E. unfold lookup. rewrite E. apply computes_ret. Qed.

(** Reading [w.transform] and looking at the object. *)
Lemma computes_read_pose {A} (w : Waypoint) (k : Transform F -> M A) r :
  computes (k (wp_pose w)) r ->
  computes (t <- transform w ;; p <- load t ;; k p) r.
Proof.
  intros Hk h. unfold bind, transform, alloc, load.
  rewrite nth_error_fresh. destruct (Hk (h ++ [wp_pose w])) as [f E].
  exists (wp_pose w :: f). rewrite E. now rewrite <- app_assoc.
Qed.

(** [_lateral_shift(w.transform, shift)]: the object that is turned is
    the one the read has just made. *)
Lemma lateral_shift_fresh (w : Waypoint) (shift : F) (h : Heap) :
  (t <- transform w ;; _lateral_shift t shift) h
  = Ok (shifted (wp_pose w) shift, h ++ [quarter_turn (wp_pose w)]).
Proof.
  unfold bind, transform, alloc, _lateral_shift, bind, load, store.
  repeat (first [rewrite nth_error_fresh | rewrite update_fresh];
          cbv beta iota).
  reflexivity.
Qed.

Lemma computes_lateral_shift (w : Waypoint) (shift : F) :
  computes (t <- transform w ;; _lateral_shift t shift)
           (Ok (shifted (wp_pose w) shift)).
Proof.
  intros h. exists [quarter_turn (wp_pose w)]. apply lateral_shift_fresh.
Qed.

Lemma computes_mapM {A B} (f : A -> M B) (g : A -> B) (l : list A) :
  (forall a, In a l -> computes (f a) (Ok (g a))) ->
  computes (mapM f l) (Ok (map g l)).
Proof.
  induction l as [|a l IH]; intros Hf; simpl.
  - apply computes_ret.
  - apply (computes_bind _ _ (Ok (g a)) (fun b => Ok (b :: map g l))).
    + apply Hf. now left.
    + intros b [= <-].
      apply (computes_bind _ _ (Ok (map g l)) (fun bs => Ok (g a :: bs))).
      * apply IH. intros a' Ha'. apply Hf. now right.
      * intros bs [= <-]. apply computes_ret.
Qed.

Lemma computes_foldM {A B} (f : B -> A -> M B) f' (l : list A) :
  (forall b a, In a l -> computes (f b a) (f' b a)) ->
  forall b, computes (foldM f l b) (rfold f' l b).
Proof.
  induction l as [|a l IH]; intros Hf b; simpl.
  - apply computes_ret.
  - apply computes_bind.
    + apply Hf. now left.
    + intros b' _. apply IH. intros b'' a' Ha'. apply Hf. now right.
Qed.

(** ** Dictionaries *)

Lemma get_set_same {V} (k : Z) (v : V) (d : Dict.t V) :
  Dict.get k (Dict.set k v d) = Some v.
Proof.
  induction d as [|[k' v'] d IH]; simpl.
  - now rewrite Z.eqb_refl.
  - destruct (k =? k') eqn:E; simpl; rewrite ?Z.eqb_refl, ?E; auto.
Qed.

Lemma get_set_other {V} (k k' : Z) (v : V) (d : Dict.t V) :
  k' <> k -> Dict.get k' (Dict.set k v d) = Dict.get k' d.
Proof.
  intros Hne. induction d as [|[k0 v0] d IH]; simpl.
  - apply Z.eqb_neq in Hne. now rewrite Hne.
  - destruct (k =? k0) eqn:E; simpl.
    + apply Z.eqb_eq in E. subst k0. apply Z.eqb_neq in Hne. now rewrite Hne.
    + now rewrite IH.
Qed.

Lemma set_set {V} (k : Z) (v v' : V) (d : Dict.t V) :
  Dict.set k v (Dict.set k v' d) = Dict.set k v d.
Proof.
  induction d as [|[k0 v0] d IH]; simpl.
  - now rewrite Z.eqb_refl.
  - destruct (k =? k0) eqn:E; simpl; rewrite ?Z.eqb_refl, ?E, ?IH; auto.
Qed.

Lemma get_In {V} (k : Z) (v : V) (d : Dict.t V) :
  Dict.get k d = Some v -> In (k, v) d.
Proof.
  induction d as [|[k0 v0] d IH]; simpl; [discriminate|].
  destruct (k =? k0) eqn:E.
  - apply Z.eqb_eq in E. intros [= ->]. left. now subst.
  - intros Hg. right. auto.
Qed.

Lemma get_None_keys {V} (k : Z) (d : Dict.t V) :
  Dict.get k d = None <-> ~ In k (Dict.keys d).
Proof.
  induction d as [|[k0 v0] d IH]; simpl; [tauto|].
  destruct (k =? k0) eqn:E.
  - apply Z.eqb_eq in E. split; [discriminate | intros Hn; exfalso; auto].
  - apply Z.eqb_neq in E. rewrite IH. split; [intros Hn [Hk|Hk] | ]; auto.
Qed.

Lemma In_get {V} (k : Z) (v : V) (d : Dict.t V) :
  well_keyed d -> In (k, v) d -> Dict.get k d = Some v.
Proof.
  unfold well_keyed. induction d as [|[k0 v0] d IH]; simpl; [tauto|].
  intros Hnd [Hin|Hin]; inversion Hnd as [|? ? Hk0 Hd]; subst.
  - injection Hin as -> ->. now rewrite Z.eqb_refl.
  - destruct (k =? k0) eqn:E; [|auto].
    apply Z.eqb_eq in E. subst k0. exfalso. apply Hk0.
    change (In (fst (k, v)) (map fst d)). now apply in_map.
Qed.

Lemma keys_set {V} (k : Z) (v : V) (d : Dict.t V) :
  Dict.keys (Dict.set k v d)
  = if Dict.mem k d then Dict.keys d else Dict.keys d ++ [k].
Proof.
  unfold Dict.mem. induction d as [|[k0 v0] d IH]; simpl; [reflexivity|].
  destruct (k =? k0) eqn:E; simpl.
  - apply Z.eqb_eq in E. now subst.
  - rewrite IH. now destruct (Dict.get k d).
Qed.

Lemma well_keyed_set {V} (k : Z) (v : V) (d : Dict.t V) :
  well_keyed d -> well_keyed (Dict.set k v d).
Proof.
  unfold well_keyed. rewrite keys_set. unfold Dict.mem.
  destruct (Dict.get k d) eqn:E; [auto|]. intros Hnd.
  apply get_None_keys in E.
  apply NoDup_app; [assumption | repeat constructor; intros [] | ].
  intros a Ha [<-|[]]. auto.
Qed.

Lemma In_set {V} (k k' : Z) (v v' : V) (d : Dict.t V) :
  In (k', v') (Dict.set k v d) -> (k' = k /\ v' = v) \/ In (k', v') d.
Proof.
  induction d as [|[k0 v0] d IH]; simpl.
  - intros [[= <- <-]|[]]. now left.
  - destruct (k =? k0); simpl.
    + intros [[= <- <-]|Hin]; [now left | right; now right].
    + intros [Hin|Hin]; [right; now left|].
      destruct (IH Hin) as [Heq|Hin']; [now left | right; now right].
Qed.

(** ** The sampler *)

Lemma walk_sound (carla_map : Map) (seed : Waypoint) (fuel : nat) :
  forall w acc ws,
    walk fuel carla_map seed (next carla_map w precision) acc = Ok ws ->
    exists tail, ws = acc ++ tail /\ Walk carla_map (wp_road_id seed) w tail.
Proof.
  induction fuel as [|fuel IH]; intros w acc ws; simpl;
    destruct (next carla_map w precision) as [|n others] eqn:En.
  - intros [= <-]. exists []. rewrite app_nil_r. split; [reflexivity|].
    now apply Walk_end_of_network.
  - destruct (wp_road_id n =? wp_road_id seed) eqn:Er; [discriminate|].
    intros [= <-]. exists []. rewrite app_nil_r. split; [reflexivity|].
    apply Z.eqb_neq in Er. now apply Walk_road_change with n others.
  - intros [= <-]. exists []. rewrite app_nil_r. split; [reflexivity|].
    now apply Walk_end_of_network.
  - destruct (wp_road_id n =? wp_road_id seed) eqn:Er.
    + intros Hw. apply IH in Hw. destruct Hw as (tail & -> & Hw).
      exists (n :: tail). rewrite <- app_assoc. split; [reflexivity|].
      apply Z.eqb_eq in Er. now apply Walk_append with others.
    + intros [= <-]. exists []. rewrite app_nil_r. split; [reflexivity|].
      apply Z.eqb_neq in Er. now apply Walk_road_change with n others.
Qed.

Lemma walk_complete (carla_map : Map) (seed : Waypoint) w tail :
  Walk carla_map (wp_road_id seed) w tail ->
  forall fuel acc, (length tail <= fuel)%nat ->
    walk fuel carla_map seed (next carla_map w precision) acc
    = Ok (acc ++ tail).
Proof.
  induction 1 as [w En|w n others En Hr|w n others tail En Hr Hw IH];
    intros fuel acc Hf.
  - destruct fuel; simpl; rewrite En, app_nil_r; reflexivity.
  - apply Z.eqb_neq in Hr.
    destruct fuel; simpl; rewrite En, Hr, app_nil_r; reflexivity.
  - apply Z.eqb_eq in Hr. destruct fuel as [|fuel]; simpl in Hf; [lia|].
    simpl. rewrite En, Hr, IH by lia. now rewrite <- app_assoc.
Qed.

Lemma walk_never_raises (carla_map : Map) (seed : Waypoint) (fuel : nat) :
  forall nxt acc e, walk fuel carla_map seed nxt acc <> Raise e.
Proof.
  induction fuel as [|fuel IH]; intros [|n others] acc e; simpl;
    try discriminate;
    destruct (wp_road_id n =? wp_road_id seed); try discriminate.
  apply IH.
Qed.

Lemma Walk_on_road (carla_map : Map) (road : Z) w tail :
  Walk carla_map road w tail -> Forall (fun n => wp_road_id n = road) tail.
Proof. induction 1; auto. Qed.

Lemma Walk_functional (carla_map : Map) (road : Z) w tail :
  Walk carla_map road w tail ->
  forall tail', Walk carla_map road w tail' -> tail = tail'.
Proof.
  induction 1 as [w En|w n others En Hr|w n others tail En Hr Hw IH];
    intros tail' Hw'; inversion Hw'; subst; try congruence.
  assert (n0 = n) by congruence. subst. f_equal. auto.
Qed.

Lemma sample_sound (carla_map : Map) (seed : Waypoint) fuel ws :
  sample fuel carla_map seed = Ok ws ->
  exists tail, ws = seed :: tail /\ Walk carla_map (wp_road_id seed) seed tail.
Proof.
  intros Hs. apply walk_sound in Hs. destruct Hs as (tail & -> & Hw).
  now exists tail.
Qed.

(** ** The order of the seeds *)

Lemma insert_by_key_perm {A} (a : F * A) (l : list (F * A)) :
  Permutation (insert_by_key a l) (a :: l).
Proof.
  induction l as [|b l IH]; simpl; [reflexivity|].
  destruct (fltb (fst b) (fst a)); [|reflexivity].
  rewrite IH. apply perm_swap.
Qed.

Lemma sort_by_key_perm {A} (l : list (F * A)) :
  Permutation (sort_by_key l) l.
Proof.
  induction l as [|a l IH]; simpl; [reflexivity|].
  rewrite insert_by_key_perm. now constructor.
Qed.



Lemma map_snd_combine_keys {A} (key : A -> F) (l : list A) :
  map snd (combine (map key l) l) = l.
Proof. induction l as [|a l IH]; simpl; congruence. Qed.

Lemma seeds_of_perm (carla_map : Map) :
  Permutation (seeds_of carla_map) (map fst (get_topology carla_map)).
Proof.
  unfold seeds_of.
  rewrite sort_by_key_perm. now rewrite map_snd_combine_keys.
Qed.




Lemma computes_elevation (w : Waypoint) :
  computes (elevation w) (Ok (elevation_of w)).
Proof. unfold elevation. apply computes_read_pose, computes_ret. Qed.

Lemma computes_seeds (carla_map : Map) :
  computes (seeds carla_map) (Ok (seeds_of carla_map)).
Proof.
  unfold seeds, sorted, seeds_of.
  apply (computes_bind _ _ (Ok (map elevation_of (map fst (get_topology carla_map))))
           (fun ks => Ok (map snd (sort_by_key
                           (combine ks (map fst (get_topology carla_map))))))).
  - apply computes_mapM. intros w _. apply computes_elevation.
  - intros ks _. apply computes_ret.
Qed.

(** ** The first loop: from the seeds to [map_dict] *)

Lemma computes_markings (ws : list Waypoint) :
  computes (markings ws) (Ok (map left_of ws, map right_of ws)).
Proof.
  unfold markings.
  apply (computes_bind _ _ (Ok (map left_of ws))
           (fun l => Ok (l, map right_of ws))).
  { apply computes_mapM. intros w _. apply computes_lateral_shift. }
  intros l [= <-].
  apply (computes_bind _ _ (Ok (map right_of ws))
           (fun r => Ok (map left_of ws, r))).
  { apply computes_mapM. intros w _. apply computes_lateral_shift. }
  intros r [= <-]. apply computes_ret.
Qed.

Lemma computes_sample_lane (fuel : nat) (carla_map : Map)
    (map_dict : MapDict) (waypoint : Waypoint) :
  computes (sample_lane fuel carla_map map_dict waypoint)
           (rbind (sample fuel carla_map waypoint)
                  (fun ws => Ok (put_lane map_dict waypoint (lane_of ws)))).
Proof.
  unfold sample_lane. apply computes_bind; [apply computes_lift|].
  intros ws _.
  apply (computes_bind _ _ (Ok (map left_of ws, map right_of ws))
           (fun lr => Ok (put_lane map_dict waypoint
                            {| waypoints := ws; left_marking := fst lr;
                               right_marking := snd lr |}))).
  { apply computes_markings. }
  intros lr [= <-]. cbn [fst snd]. unfold put_lane.
  destruct (Dict.get (wp_road_id waypoint) map_dict) as [g|] eqn:Eg.
  - apply (computes_bind _ _ (Ok g)
             (fun g => Ok (Dict.set (wp_road_id waypoint)
                             (Dict.set (wp_lane_id waypoint) (lane_of ws) g)
                             map_dict))).
    + now apply computes_lookup.
    + intros g' _. apply computes_ret.
  - apply (computes_bind _ _ (Ok [])
             (fun g => Ok (Dict.set (wp_road_id waypoint)
                             (Dict.set (wp_lane_id waypoint) (lane_of ws) g)
                             map_dict))).
    + apply computes_lookup, get_set_same.
    + intros g' [= <-]. rewrite set_set. apply computes_ret.
Qed.

Lemma computes_build_map_dict (fuel : nat) (carla_map : Map) :
  computes (build_map_dict fuel carla_map) (map_dict_of fuel carla_map).
Proof.
  unfold build_map_dict, map_dict_of.
  apply (computes_bind _ _ (Ok (seeds_of carla_map))
           (fun topology =>
              rfold (fun map_dict waypoint =>
                       rbind (sample fuel carla_map waypoint)
                             (fun ws => Ok (put_lane map_dict waypoint
                                              (lane_of ws))))
                    topology [])).
  - apply computes_seeds.
  - intros topology [= <-]. apply computes_foldM.
    intros b a _. apply computes_sample_lane.
Qed.

Lemma put_lane_built (fuel : nat) (carla_map : Map) (map_dict : MapDict)
    (seed : Waypoint) (ws : list Waypoint) :
  map_dict_built fuel carla_map map_dict ->
  In seed (map fst (get_topology carla_map)) ->
  sample fuel carla_map seed = Ok ws ->
  map_dict_built fuel carla_map (put_lane map_dict seed (lane_of ws)).
Proof.
  intros [Hwk Hgroups] Hseed Hws. unfold put_lane.
  set (g0 := match Dict.get (wp_road_id seed) map_dict with
             | Some g => g
             | None => []
             end).
  assert (Hg0 : well_keyed g0 /\
                forall lane_key lane, In (lane_key, lane) g0 ->
                  lane_built fuel carla_map (wp_road_id seed) lane_key lane).
  { subst g0. destruct (Dict.get (wp_road_id seed) map_dict) as [g|] eqn:Eg.
    - apply get_In in Eg. now apply Hgroups.
    - split; [constructor | intros ? ? []]. }
  destruct Hg0 as [Hwk0 Hlanes0].
  split; [now apply well_keyed_set|].
  intros road_key group Hin. apply In_set in Hin.
  destruct Hin as [[-> ->]|Hin]; [|now apply Hgroups].
  split; [now apply well_keyed_set|].
  intros lane_key lane Hin. apply In_set in Hin.
  destruct Hin as [[-> ->]|Hin]; [|now apply Hlanes0].
  exists seed. cbn [waypoints lane_of]. auto.
Qed.

Lemma rfold_put_lane_built (fuel : nat) (carla_map : Map)
    (topology : list Waypoint) :
  (forall w, In w topology -> In w (map fst (get_topology carla_map))) ->
  forall map_dict map_dict',
    map_dict_built fuel carla_map map_dict ->
    rfold (fun map_dict waypoint =>
             rbind (sample fuel carla_map waypoint)
                   (fun ws => Ok (put_lane map_dict waypoint (lane_of ws))))
          topology map_dict = Ok map_dict' ->
    map_dict_built fuel carla_map map_dict'.
Proof.
  induction topology as [|w topology IH]; intros Hin md md' Hb; simpl.
  - now intros [= <-].
  - destruct (sample fuel carla_map w) as [ws| |] eqn:Es; simpl;
      try discriminate.
    apply IH.
    + intros w' Hw'. apply Hin. now right.
    + apply put_lane_built; auto. apply Hin. now left.
Qed.

Lemma map_dict_of_built (fuel : nat) (carla_map : Map) (map_dict : MapDict) :
  map_dict_of fuel carla_map = Ok map_dict ->
  map_dict_built fuel carla_map map_dict.
Proof.
  apply rfold_put_lane_built.
  - intros w Hw. eapply Permutation_in; [apply seeds_of_perm | exact Hw].
  - split; [constructor | intros ? ? []].
Qed.

(** What a run of the first loop leaves, read off the heap result. *)
Lemma build_map_dict_Ok (fuel : nat) (carla_map : Map) (h h' : Heap)
    (map_dict : MapDict) :
  build_map_dict fuel carla_map h = Ok (map_dict, h') ->
  map_dict_of fuel carla_map = Ok map_dict.
Proof.
  intros E. destruct (computes_build_map_dict fuel carla_map h) as [f E'].
  rewrite E in E'. destruct (map_dict_of fuel carla_map); simpl in E';
    congruence.
Qed.

(** ** The second loop: from [map_dict] to the graph *)

Lemma neighbour_waypoint_id_run (group : RoadGroup) (key : Z) (i : nat)
    (h : Heap) :
  neighbour_waypoint_id group key i h = Ok (neighbour_id_of group key i, h).
Proof.
  unfold neighbour_waypoint_id, neighbour_id_of, Dict.mem, lookup, bind.
  destruct (Dict.get key group) as [nl|]; [|reflexivity]. cbn [ret].
  destruct (i <? length (waypoints nl))%nat eqn:Ei.
  - apply Nat.ltb_lt in Ei. unfold index.
    destruct (nth_error (waypoints nl) i) as [w|] eqn:Ew; [reflexivity|].
    apply nth_error_None in Ew. lia.
  - apply Nat.ltb_ge in Ei. apply nth_error_None in Ei. now rewrite Ei.
Qed.

Lemma add_node_run (carla_map : Map) (map_dict : MapDict)
    (road_key lane_key : Z) (group : RoadGroup) (lane : Lane)
    (g : Graph) (i : nat) (w : Waypoint) (h : Heap) :
  Dict.get road_key map_dict = Some group ->
  Dict.get lane_key group = Some lane ->
  lane = lane_of (waypoints lane) ->
  nth_error (waypoints lane) i = Some w ->
  add_node carla_map map_dict road_key lane_key lane g i h
  = Ok (Dict.set (wp_id w)
          (node_of carla_map group road_key lane_key (waypoints lane) i w) g,
        h ++ [wp_pose w; wp_pose w]).
Proof.
  intros Eg El Elane Ew.
  assert (Eleft : nth_error (left_marking lane) i = Some (left_of w)).
  { rewrite Elane. cbn [left_marking lane_of]. now apply map_nth_error. }
  assert (Eright : nth_error (right_marking lane) i = Some (right_of w)).
  { rewrite Elane. cbn [right_marking lane_of]. now apply map_nth_error. }
  unfold add_node, bind, lookup, index, transform, alloc, load.
  rewrite Eg. cbn [ret]. rewrite !neighbour_waypoint_id_run.
  rewrite Eleft, Eright, Ew. cbn [ret].
  rewrite nth_error_fresh, El. cbn [ret]. rewrite nth_error_fresh, Ew.
  cbn [ret]. now rewrite <- app_assoc.
Qed.

Lemma store_all_app (a b : list (Z * NodeRecord)) (g : Graph) :
  store_all (a ++ b) g = store_all b (store_all a g).
Proof. apply fold_left_app. Qed.

Lemma computes_add_nodes (carla_map : Map) (map_dict : MapDict)
    (road_key lane_key : Z) (group : RoadGroup) (lane : Lane) :
  Dict.get road_key map_dict = Some group ->
  Dict.get lane_key group = Some lane ->
  lane = lane_of (waypoints lane) ->
  forall rest i g,
    (forall j w, nth_error rest j = Some w ->
                 nth_error (waypoints lane) (i + j) = Some w) ->
    computes (foldM (add_node carla_map map_dict road_key lane_key lane)
                    (seq i (length rest)) g)
             (Ok (store_all (lane_nodes carla_map group road_key lane_key
                                        (waypoints lane) i rest) g)).
Proof.
  intros Eg El Elane.
  induction rest as [|w rest IH]; intros i g Hrest; simpl.
  - apply computes_ret.
  - intros h.
    assert (Ew : nth_error (waypoints lane) i = Some w).
    { rewrite <- (Nat.add_0_r i). now apply Hrest. }
    unfold bind.
    rewrite (add_node_run carla_map map_dict road_key lane_key group lane
               g i w h Eg El Elane Ew).
    destruct (IH (S i)
                (Dict.set (wp_id w)
                   (node_of carla_map group road_key lane_key
                      (waypoints lane) i w) g)) with
      (h := h ++ [wp_pose w; wp_pose w]) as [f E].
    { intros j w' Hj. rewrite Nat.add_succ_l, <- Nat.add_succ_r.
      now apply Hrest. }
    exists ([wp_pose w; wp_pose w] ++ f). rewrite E. cbn [lift].
    now rewrite <- app_assoc.
Qed.

Lemma computes_add_lane (carla_map : Map) (map_dict : MapDict)
    (road_key lane_key : Z) (group : RoadGroup) (lane : Lane) (g : Graph) :
  Dict.get road_key map_dict = Some group ->
  Dict.get lane_key group = Some lane ->
  lane = lane_of (waypoints lane) ->
  computes (add_lane carla_map map_dict road_key g lane_key)
           (Ok (store_all (lane_nodes carla_map group road_key lane_key
                                      (waypoints lane) 0 (waypoints lane)) g)).
Proof.
  intros Eg El Elane h. unfold add_lane, bind, lookup.
  rewrite Eg. cbn [ret]. rewrite El. cbn [ret].
  now apply (computes_add_nodes carla_map map_dict road_key lane_key group
               lane Eg El Elane (waypoints lane) 0%nat g).
Qed.

Lemma computes_add_lanes (carla_map : Map) (map_dict : MapDict)
    (road_key : Z) (group : RoadGroup) :
  Dict.get road_key map_dict = Some group ->
  forall lanes g,
    (forall lane_key lane, In (lane_key, lane) lanes ->
       Dict.get lane_key group = Some lane /\
       lane = lane_of (waypoints lane)) ->
    computes (foldM (add_lane carla_map map_dict road_key) (Dict.keys lanes) g)
             (Ok (store_all
                    (flat_map (fun kl =>
                       lane_nodes carla_map group road_key (fst kl)
                                  (waypoints (snd kl)) 0 (waypoints (snd kl)))
                       lanes) g)).
Proof.
  intros Eg. induction lanes as [|[lane_key lane] lanes IH]; intros g Hl; simpl.
  - apply computes_ret.
  - destruct (Hl lane_key lane) as [El Elane]; [now left|].
    rewrite store_all_app.
    apply (computes_bind _ _
             (Ok (store_all (lane_nodes carla_map group road_key lane_key
                               (waypoints lane) 0 (waypoints lane)) g))
             (fun g' => Ok (store_all
                (flat_map (fun kl =>
                   lane_nodes carla_map group road_key (fst kl)
                              (waypoints (snd kl)) 0 (waypoints (snd kl)))
                   lanes) g'))).
    + now apply computes_add_lane.
    + intros g' [= <-]. apply IH. intros k l Hin. apply Hl. now right.
Qed.

Lemma computes_add_road (fuel : nat) (carla_map : Map) (map_dict : MapDict)
    (road_key : Z) (group : RoadGroup) (g : Graph) :
  map_dict_built fuel carla_map map_dict ->
  In (road_key, group) map_dict ->
  computes (add_road carla_map map_dict g road_key)
           (Ok (store_all (road_nodes carla_map road_key group) g)).
Proof.
  intros [Hwk Hgroups] Hin h.
  destruct (Hgroups road_key group Hin) as [Hwkg Hlanes].
  assert (Eg : Dict.get road_key map_dict = Some group) by now apply In_get.
  unfold add_road, bind, lookup. rewrite Eg. cbn [ret].
  apply (computes_add_lanes carla_map map_dict road_key group Eg group g).
  intros lane_key lane Hl. split; [now apply In_get|].
  destruct (Hlanes lane_key lane Hl) as (seed & _ & _ & _ & _ & Elane).
  exact Elane.
Qed.

Lemma computes_add_roads (fuel : nat) (carla_map : Map) (map_dict : MapDict) :
  map_dict_built fuel carla_map map_dict ->
  forall roads g,
    (forall road_key group, In (road_key, group) roads ->
                            In (road_key, group) map_dict) ->
    computes (foldM (add_road carla_map map_dict) (Dict.keys roads) g)
             (Ok (store_all (all_nodes carla_map roads) g)).
Proof.
  intros Hb. induction roads as [|[road_key group] roads IH]; intros g Hr;
    simpl.
  - apply computes_ret.
  - unfold all_nodes. simpl. rewrite store_all_app.
    apply (computes_bind _ _
             (Ok (store_all (road_nodes carla_map road_key group) g))
             (fun g' => Ok (store_all (all_nodes carla_map roads) g'))).
    + apply computes_add_road with fuel; [assumption|]. apply Hr. now left.
    + intros g' [= <-]. apply IH. intros k v Hin. apply Hr. now right.
Qed.

Lemma computes_build_graph (fuel : nat) (carla_map : Map)
    (map_dict : MapDict) :
  map_dict_built fuel carla_map map_dict ->
  computes (build_graph carla_map map_dict)
           (Ok (graph_of carla_map map_dict)).
Proof.
  intros Hb. unfold build_graph, graph_of.
  now apply computes_add_roads with fuel.
Qed.

Lemma computes_get_scene_layout (fuel : nat) (carla_map : Map) :
  computes (get_scene_layout fuel carla_map) (layout_of fuel carla_map).
Proof.
  unfold get_scene_layout, layout_of, rmap. apply computes_bind.
  - apply computes_build_map_dict.
  - intros md Emd. apply computes_build_graph with fuel.
    now apply map_dict_of_built.
Qed.

(** ** The records of the graph *)

Lemma get_store_all_other (nodes : list (Z * NodeRecord)) (k : Z) :
  ~ In k (map fst nodes) ->
  forall g, Dict.get k (store_all nodes g) = Dict.get k g.
Proof.
  induction nodes as [|[k' n'] nodes IH]; intros Hk g; simpl; [reflexivity|].
  simpl in Hk. unfold store_all in IH. rewrite IH by tauto.
  apply get_set_other. intros ->. tauto.
Qed.

Lemma get_store_all_In (nodes : list (Z * NodeRecord)) (k : Z)
    (node : NodeRecord) :
  forall g, Dict.get k (store_all nodes g) = Some node ->
            In (k, node) nodes \/ Dict.get k g = Some node.
Proof.
  induction nodes as [|[k' n'] nodes IH]; intros g; simpl; [now right|].
  intros Hg. apply IH in Hg. destruct Hg as [Hin|Hg]; [left; now right|].
  destruct (Z.eq_dec k k') as [->|Hne].
  - rewrite get_set_same in Hg. injection Hg as ->. left. now left.
  - rewrite get_set_other in Hg by assumption. now right.
Qed.

Lemma get_store_all_key (nodes : list (Z * NodeRecord)) (k : Z) :
  In k (map fst nodes) ->
  forall g, exists node, Dict.get k (store_all nodes g) = Some node.
Proof.
  induction nodes as [|[k' n'] nodes IH]; intros Hk g; simpl; [destruct Hk|].
  destruct (in_dec Z.eq_dec k (map fst nodes)) as [Hin|Hnin].
  - now apply IH.
  - destruct Hk as [Hk|Hk]; [|contradiction]. simpl in Hk. subst k'.
    exists n'. fold (store_all nodes (Dict.set k n' g)).
    rewrite get_store_all_other by assumption. apply get_set_same.
Qed.

Lemma get_store_all_NoDup (nodes : list (Z * NodeRecord)) (k : Z)
    (node : NodeRecord) :
  NoDup (map fst nodes) -> In (k, node) nodes ->
  forall g, Dict.get k (store_all nodes g) = Some node.
Proof.
  induction nodes as [|[k' n'] nodes IH]; intros Hnd Hin g; simpl;
    [destruct Hin|].
  inversion Hnd as [|? ? Hk' Hnd']; subst. destruct Hin as [[= -> ->]|Hin].
  - fold (store_all nodes (Dict.set k node g)).
    rewrite get_store_all_other by assumption. apply get_set_same.
  - now apply IH.
Qed.

Lemma In_lane_nodes (carla_map : Map) (group : RoadGroup)
    (road_key lane_key : Z) (ws : list Waypoint) (k : Z) (node : NodeRecord) :
  forall rest i,
    In (k, node) (lane_nodes carla_map group road_key lane_key ws i rest) <->
    exists j w, nth_error rest j = Some w /\ k = wp_id w /\
      node = node_of carla_map group road_key lane_key ws (i + j) w.
Proof.
  induction rest as [|w rest IH]; intros i; simpl.
  - split; [intros [] | intros ([|j] & w & Hj & _); discriminate].
  - rewrite IH. split.
    + intros [[= <- <-]|(j & w' & Hj & Hk & Hn)].
      * exists 0%nat, w. rewrite Nat.add_0_r. auto.
      * exists (S j), w'. rewrite Nat.add_succ_r. auto.
    + intros ([|j] & w' & Hj & -> & ->); simpl in Hj.
      * injection Hj as ->. left. now rewrite Nat.add_0_r.
      * right. exists j, w'. rewrite Nat.add_succ_r. auto.
Qed.

Lemma In_all_nodes (carla_map : Map) (map_dict : MapDict) (k : Z)
    (node : NodeRecord) :
  In (k, node) (all_nodes carla_map map_dict) <->
  exists road_key group lane_key lane i w,
    In (road_key, group) map_dict /\ In (lane_key, lane) group /\
    nth_error (waypoints lane) i = Some w /\ k = wp_id w /\
    node = node_of carla_map group road_key lane_key (waypoints lane) i w.
Proof.
  unfold all_nodes, road_nodes. rewrite in_flat_map. split.
  - intros ([road_key group] & Hr & Hin). rewrite in_flat_map in Hin.
    destruct Hin as ([lane_key lane] & Hl & Hin).
    apply In_lane_nodes in Hin. destruct Hin as (j & w & Hj & Hk & Hn).
    exists road_key, group, lane_key, lane, j, w. auto.
  - intros (road_key & group & lane_key & lane & i & w & Hr & Hl & Hi & Hk
            & Hn).
    exists (road_key, group). split; [assumption|]. rewrite in_flat_map.
    exists (lane_key, lane). split; [assumption|].
    apply In_lane_nodes. exists i, w. auto.
Qed.

Lemma keys_lane_nodes (carla_map : Map) (group : RoadGroup)
    (road_key lane_key : Z) (ws : list Waypoint) :
  forall rest i,
    map fst (lane_nodes carla_map group road_key lane_key ws i rest)
    = map wp_id rest.
Proof. induction rest as [|w rest IH]; intros i; simpl; congruence. Qed.

Lemma keys_lanes_nodes (carla_map : Map) (group : RoadGroup) (road_key : Z)
    (lanes : list (Z * Lane)) :
  map fst (flat_map (fun kl =>
             lane_nodes carla_map group road_key (fst kl)
                        (waypoints (snd kl)) 0 (waypoints (snd kl))) lanes)
  = map wp_id (flat_map (fun kl => waypoints (snd kl)) lanes).
Proof.
  induction lanes as [|[lane_key lane] lanes IH]; simpl; [reflexivity|].
  now rewrite !map_app, keys_lane_nodes, IH.
Qed.

Lemma keys_all_nodes (carla_map : Map) (map_dict : MapDict) :
  map fst (all_nodes carla_map map_dict)
  = map wp_id (sampled_waypoints map_dict).
Proof.
  unfold all_nodes, sampled_waypoints, road_nodes.
  induction map_dict as [|[road_key group] map_dict IH]; simpl; [reflexivity|].
  now rewrite !map_app, IH, keys_lanes_nodes.
Qed.

Lemma rfold_never_raises {A B} (f : B -> A -> result B) (l : list A) :
  (forall b a e, f b a <> Raise e) ->
  forall b e, rfold f l b <> Raise e.
Proof.
  intros Hf. induction l as [|a l IH]; intros b e; simpl; [discriminate|].
  destruct (f b a) as [b'| e' |] eqn:E; simpl; [apply IH | | discriminate].
  exfalso. now apply (Hf b a e').
Qed.

Lemma map_dict_of_never_raises (fuel : nat) (carla_map : Map) (e : exn) :
  map_dict_of fuel carla_map <> Raise e.
Proof.
  apply rfold_never_raises. intros md w e'.
  destruct (sample fuel carla_map w) as [ws| e'' |] eqn:E; simpl;
    try discriminate.
  exfalso. now apply (walk_never_raises _ _ _ _ _ _ E).
Qed.

Lemma get_scene_layout_Ok (fuel : nat) (carla_map : Map) (h h' : Heap)
    (g : Graph) :
  get_scene_layout fuel carla_map h = Ok (g, h') ->
  exists map_dict,
    map_dict_of fuel carla_map = Ok map_dict /\
    map_dict_built fuel carla_map map_dict /\
    g = graph_of carla_map map_dict.
Proof.
  intros E. destruct (computes_get_scene_layout fuel carla_map h) as [f E'].
  rewrite E in E'. unfold layout_of, rmap in E'.
  destruct (map_dict_of fuel carla_map) as [md| |] eqn:Emd; simpl in E';
    try discriminate.
  exists md. split; [reflexivity|]. split; [now apply map_dict_of_built|].
  congruence.
Qed.

(** ** The sampler and the lane keys *)

(** C1, as amended: for every seed whose walk of section 4.1 is finite
    (it reaches an empty query or a waypoint of another road after finitely
    many steps) the sampler returns the seed followed by that walk, queried
    at [precision] = 0.05 through the first candidate only: the next
    waypoint is appended exactly while it exists and is on the seed's road,
    and the walk stops, appending nothing, at the first road change or
    empty query. The loop returns it given fuel for its length, whatever it
    returns is the seed followed by such a walk, and it never raises. Every
    element of the result has the seed's [road_id], and a seed whose first
    query is empty or leaves the road yields [[seed]], of length 1. Without
    the finite walk the sampler need not return at all. *)
Theorem sampler_follows_the_road (carla_map : Map) (seed : Waypoint) :
  precision = float_lit (5 # 100) /\
  (forall fuel ws,
     sample fuel carla_map seed = Ok ws ->
     exists tail,
       ws = seed :: tail /\
       Walk carla_map (wp_road_id seed) seed tail /\
       Forall (fun w => wp_road_id w = wp_road_id seed) ws) /\
  (forall tail,
     Walk carla_map (wp_road_id seed) seed tail ->
     forall fuel, (length tail <= fuel)%nat ->
       sample fuel carla_map seed = Ok (seed :: tail)) /\
  (forall fuel e, sample fuel carla_map seed <> Raise e) /\
  (next carla_map seed precision = [] \/
   (exists n others, next carla_map seed precision = n :: others /\
                     wp_road_id n <> wp_road_id seed) ->
   forall fuel, sample fuel carla_map seed = Ok [seed]).
Proof.
  split; [reflexivity|]. split; [|split; [|split]].
  - intros fuel ws Hs. apply sample_sound in Hs.
    destruct Hs as (tail & -> & Hw). exists tail.
    split; [reflexivity|]. split; [assumption|].
    constructor; [reflexivity|]. now apply Walk_on_road with carla_map seed.
  - intros tail Hw fuel Hf. unfold sample.
    now rewrite (walk_complete carla_map seed seed tail Hw fuel [seed] Hf).
  - intros fuel e. apply walk_never_raises.
  - intros Hshort fuel.
    assert (Hw : Walk carla_map (wp_road_id seed) seed []).
    { destruct Hshort as [En|(n & others & En & Hr)].
      - now apply Walk_end_of_network.
      - now apply Walk_road_change with n others. }
    unfold sample.
    rewrite (walk_complete carla_map seed seed [] Hw fuel [seed]);
      [reflexivity | simpl; lia].
Qed.

(** C2: the left neighbour of lane [L] is [L - 1] unless that is 0, and
    then [L - 2]; the right neighbour is [L + 1] unless that is 0, and
    then [L + 2]. So the left of 1 is -1, the left of -1 is -2, the right
    of -1 is 1 and the right of 2 is 3. *)
Theorem lane_keys_skip_zero (L : Z) :
  left_lane_key L = (if L - 1 =? 0 then L - 2 else L - 1) /\
  right_lane_key L = (if L + 1 =? 0 then L + 2 else L + 1) /\
  left_lane_key 1 = -1 /\ left_lane_key (-1) = -2 /\
  right_lane_key (-1) = 1 /\ right_lane_key 2 = 3.
Proof.
  unfold left_lane_key, right_lane_key, truthy.
  repeat split; try reflexivity.
  - now destruct (L - 1 =? 0).
  - now destruct (L + 1 =? 0).
Qed.

(** ** The node records *)

Lemma lane_of_map_dict (fuel : nat) (carla_map : Map) (h h1 : Heap)
    (map_dict : MapDict) (road_key lane_key : Z) (group : RoadGroup)
    (lane : Lane) :
  build_map_dict fuel carla_map h = Ok (map_dict, h1) ->
  Dict.get road_key map_dict = Some group ->
  Dict.get lane_key group = Some lane ->
  lane_built fuel carla_map road_key lane_key lane.
Proof.
  intros Hb Eg El. apply build_map_dict_Ok, map_dict_of_built in Hb.
  destruct Hb as [_ Hgroups]. apply get_In in Eg, El.
  destruct (Hgroups road_key group Eg) as [_ Hlanes]. now apply Hlanes.
Qed.

(** Every iteration of the innermost loop stores one record. *)
Lemma add_node_emits (fuel : nat) (carla_map : Map) (h h1 : Heap)
    (map_dict : MapDict) (road_key lane_key : Z) (group : RoadGroup)
    (lane : Lane) (i : nat) (w : Waypoint) (g : Graph) (h2 : Heap) :
  build_map_dict fuel carla_map h = Ok (map_dict, h1) ->
  Dict.get road_key map_dict = Some group ->
  Dict.get lane_key group = Some lane ->
  nth_error (waypoints lane) i = Some w ->
  add_node carla_map map_dict road_key lane_key lane g i h2
  = Ok (Dict.set (wp_id w)
          (node_of carla_map group road_key lane_key (waypoints lane) i w) g,
        h2 ++ [wp_pose w; wp_pose w]).
Proof.
  intros Hb Eg El Ew. apply add_node_run; try assumption.
  destruct (lane_of_map_dict _ _ _ _ _ _ _ _ _ Hb Eg El)
    as (seed & _ & _ & _ & _ & Elane).
  exact Elane.
Qed.

Lemma neighbour_id_of_spec (group : RoadGroup) (key : Z) (i : nat) :
  neighbour_or_sentinel group key i (neighbour_id_of group key i).
Proof.
  unfold neighbour_or_sentinel, neighbour_id_of. repeat split.
  - now intros neighbour n -> ->.
  - now intros ->.
  - intros neighbour -> Hlen. apply nth_error_None in Hlen. now rewrite Hlen.
Qed.

(** C3: the record stored for index [i] of a lane of a road group holds,
    as left (right) neighbour, the identity of the waypoint at index [i]
    of the resolved left (right) lane when the road group has that lane
    and [i] is below the length of its sequence, and the sentinel -1
    otherwise; a missing lane or a short one raises nothing: the iteration
    stores its record, and no run of the builder ends in an exception. *)
Theorem neighbour_ids_or_sentinel (fuel : nat) (carla_map : Map) (h : Heap) :
  (forall e, get_scene_layout fuel carla_map h <> Raise e) /\
  forall map_dict h1,
    build_map_dict fuel carla_map h = Ok (map_dict, h1) ->
    forall road_key group lane_key lane i w g h2,
      Dict.get road_key map_dict = Some group ->
      Dict.get lane_key group = Some lane ->
      nth_error (waypoints lane) i = Some w ->
      exists node h3,
        add_node carla_map map_dict road_key lane_key lane g i h2
        = Ok (Dict.set (wp_id w) node g, h3) /\
        neighbour_or_sentinel group (left_lane_key lane_key) i
                              (left_lane_waypoint_id node) /\
        neighbour_or_sentinel group (right_lane_key lane_key) i
                              (right_lane_waypoint_id node).
Proof.
  split.
  - intros e E.
    destruct (computes_get_scene_layout fuel carla_map h) as [f E'].
    rewrite E in E'. unfold layout_of, rmap in E'.
    destruct (map_dict_of fuel carla_map) as [md| e' |] eqn:Emd;
      simpl in E'; try discriminate.
    now apply (map_dict_of_never_raises fuel carla_map e').
  - intros md h1 Hb road_key group lane_key lane i w g h2 Eg El Ew.
    eexists _, _. split.
    + exact (add_node_emits _ _ _ _ _ _ _ _ _ _ _ g h2 Hb Eg El Ew).
    + split; apply neighbour_id_of_spec.
Qed.

(** C4: the record stored for index [i] of a lane of [n] waypoints lists as
    successors the identities of the waypoints at indices [i + 1] to
    [n - 1] of that lane, in order: [n - 1 - i] of them, and none for the
    last waypoint of the lane. *)
Theorem successors_are_the_tail (fuel : nat) (carla_map : Map) (h h1 : Heap)
    (map_dict : MapDict) :
  build_map_dict fuel carla_map h = Ok (map_dict, h1) ->
  forall road_key group lane_key lane i w g h2,
    Dict.get road_key map_dict = Some group ->
    Dict.get lane_key group = Some lane ->
    nth_error (waypoints lane) i = Some w ->
    exists node h3,
      add_node carla_map map_dict road_key lane_key lane g i h2
      = Ok (Dict.set (wp_id w) node g, h3) /\
      (forall j, nth_error (next_waypoints_ids node) j
                 = option_map wp_id (nth_error (waypoints lane) (i + 1 + j))) /\
      length (next_waypoints_ids node)
      = (length (waypoints lane) - 1 - i)%nat /\
      (i = (length (waypoints lane) - 1)%nat -> next_waypoints_ids node = []).
Proof.
  intros Hb road_key group lane_key lane i w g h2 Eg El Ew.
  eexists _, _. split.
  - exact (add_node_emits _ _ _ _ _ _ _ _ _ _ _ g h2 Hb Eg El Ew).
  - cbn [next_waypoints_ids node_of]. repeat split.
    + intros j. now rewrite nth_error_map, nth_error_skipn.
    + rewrite length_map, length_skipn. lia.
    + intros ->. rewrite skipn_all2; [reflexivity | lia].
Qed.

(** ** The lane records *)

(** C5: in every lane record of [map_dict] the three sequences have the
    same length, and at every index the left and the right marking are
    what [_lateral_shift] returns for the waypoint at that index, with
    minus and plus half its lane width. *)
Theorem lane_sequences_aligned (fuel : nat) (carla_map : Map) (h h1 : Heap)
    (map_dict : MapDict) :
  build_map_dict fuel carla_map h = Ok (map_dict, h1) ->
  forall road_key group lane_key lane,
    Dict.get road_key map_dict = Some group ->
    Dict.get lane_key group = Some lane ->
    length (left_marking lane) = length (waypoints lane) /\
    length (right_marking lane) = length (waypoints lane) /\
    forall i w,
      nth_error (waypoints lane) i = Some w ->
      exists l r,
        nth_error (left_marking lane) i = Some l /\
        nth_error (right_marking lane) i = Some r /\
        forall h0,
          (exists h0',
             (t <- transform w ;;
              _lateral_shift t (fmul (fneg (wp_lane_width w)) half)) h0
             = Ok (l, h0')) /\
          (exists h0',
             (t <- transform w ;;
              _lateral_shift t (fmul (wp_lane_width w) half)) h0
             = Ok (r, h0')).
Proof.
  intros Hb road_key group lane_key lane Eg El.
  destruct (lane_of_map_dict _ _ _ _ _ _ _ _ _ Hb Eg El)
    as (seed & _ & _ & _ & _ & Elane).
  rewrite Elane. cbn [left_marking right_marking waypoints lane_of].
  rewrite !length_map. repeat split.
  intros i w Ew. exists (left_of w), (right_of w).
  split; [now apply map_nth_error|]. split; [now apply map_nth_error|].
  intros h0. split; eexists; apply lateral_shift_fresh.
Qed.

(** C6: computing the two markings of a lane changes no transform object
    that was in the heap; afterwards [w.transform] still reads as the pose
    of the waypoint, position and yaw included. The right marking is the
    position of that pose moved by half the lane width along the forward
    vector of the pose turned by 90 degrees once, the left marking the
    same with minus half the width, although the left one is computed
    first. The record stored for the waypoint carries the yaw of the pose
    and the projections of those two positions. *)
Theorem markings_leave_the_pose (carla_map : Map) (ws : list Waypoint)
    (h : Heap) :
  let turned := fun w : Waypoint =>
    set_yaw (wp_pose w) (fadd (yaw (rotation (wp_pose w))) (float_lit 90)) in
  let right := fun w : Waypoint =>
    vadd (location (wp_pose w))
         (vscale (fmul (wp_lane_width w) half)
                 (get_forward_vector (turned w))) in
  let left := fun w : Waypoint =>
    vadd (location (wp_pose w))
         (vscale (fmul (fneg (wp_lane_width w)) half)
                 (get_forward_vector (turned w))) in
  (exists fresh,
     markings ws h = Ok ((map left ws, map right ws), h ++ fresh) /\
     (forall r t, nth_error h r = Some t ->
                  nth_error (h ++ fresh) r = Some t) /\
     (forall w, exists h',
        (t <- transform w ;; load t) (h ++ fresh) = Ok (wp_pose w, h'))) /\
  forall fuel map_dict h1 road_key group lane_key lane i w g h2,
    build_map_dict fuel carla_map h = Ok (map_dict, h1) ->
    Dict.get road_key map_dict = Some group ->
    Dict.get lane_key group = Some lane ->
    nth_error (waypoints lane) i = Some w ->
    exists node h3,
      add_node carla_map map_dict road_key lane_key lane g i h2
      = Ok (Dict.set (wp_id w) node g, h3) /\
      orientation node = [roll (rotation (wp_pose w));
                          pitch (rotation (wp_pose w));
                          yaw (rotation (wp_pose w))] /\
      position node
      = geo_list (transform_to_geolocation carla_map (location (wp_pose w))) /\
      left_margin_position node
      = geo_list (transform_to_geolocation carla_map (left w)) /\
      right_margin_position node
      = geo_list (transform_to_geolocation carla_map (right w)).
Proof.
  intros turned right left. split.
  - destruct (computes_markings ws h) as [fresh E]. exists fresh.
    split; [exact E|]. split.
    + intros r t Hr. rewrite nth_error_app1; [assumption|].
      apply nth_error_Some. congruence.
    + intros w. eexists. unfold bind, transform, alloc, load.
      now rewrite nth_error_fresh.
  - intros fuel md h1 road_key group lane_key lane i w g h2 Hb Eg El Ew.
    eexists _, _. split.
    + exact (add_node_emits _ _ _ _ _ _ _ _ _ _ _ g h2 Hb Eg El Ew).
    + repeat split.
Qed.

(** ** The graph *)

(** C7, as amended: in the graph the builder returns, the left neighbour
    of a record, when it is not -1, is a key of the graph; and when no
    waypoint identity was sampled at two places of the map (two lanes, or
    two indices of a lane), the record under that key has as [lane_id] the
    resolved left lane of the referring record's [lane_id]. *)
Theorem left_neighbour_is_a_key (fuel : nat) (carla_map : Map) (h h' : Heap)
    (g : Graph) :
  get_scene_layout fuel carla_map h = Ok (g, h') ->
  (forall k node,
     Dict.get k g = Some node ->
     left_lane_waypoint_id node <> -1 ->
     exists node', Dict.get (left_lane_waypoint_id node) g = Some node') /\
  (forall map_dict h1,
     build_map_dict fuel carla_map h = Ok (map_dict, h1) ->
     NoDup (map wp_id (sampled_waypoints map_dict)) ->
     left_references_resolve g).
Proof.
  intros Hg. apply get_scene_layout_Ok in Hg.
  destruct Hg as (md & Emd & Hbuilt & ->).
  assert (Href : forall k node,
    Dict.get k (graph_of carla_map md) = Some node ->
    left_lane_waypoint_id node <> -1 ->
    exists road_key group nl nw i,
      In (road_key, group) md /\
      In (left_lane_key (lane_id node), nl) group /\
      nth_error (waypoints nl) i = Some nw /\
      left_lane_waypoint_id node = wp_id nw).
  { intros k node Hk Hleft. apply get_store_all_In in Hk.
    destruct Hk as [Hk|Hk]; [|discriminate]. apply In_all_nodes in Hk.
    destruct Hk as (road_key & group & lane_key & lane & i & w & Hr & Hl & Hi
                    & _ & ->).
    cbn [left_lane_waypoint_id lane_id node_of] in *.
    unfold neighbour_id_of in *.
    destruct (Dict.get (left_lane_key lane_key) group) as [nl|] eqn:Enl;
      [|contradiction].
    destruct (nth_error (waypoints nl) i) as [nw|] eqn:Enw; [|contradiction].
    exists road_key, group, nl, nw, i. apply get_In in Enl. auto. }
  split.
  - intros k node Hk Hleft.
    destruct (Href k node Hk Hleft)
      as (road_key & group & nl & nw & i & Hr & Hl & Hi & ->).
    apply get_store_all_key. apply in_map_iff.
    exists (wp_id nw, node_of carla_map group road_key
                        (left_lane_key (lane_id node)) (waypoints nl) i nw).
    split; [reflexivity|]. apply In_all_nodes.
    exists road_key, group, (left_lane_key (lane_id node)), nl, i, nw. auto.
  - intros md' h1 Hb Hnd k node Hk Hleft.
    apply build_map_dict_Ok in Hb. assert (md' = md) by congruence. subst md'.
    destruct (Href k node Hk Hleft)
      as (road_key & group & nl & nw & i & Hr & Hl & Hi & ->).
    exists (node_of carla_map group road_key (left_lane_key (lane_id node))
                    (waypoints nl) i nw).
    split; [|reflexivity]. apply get_store_all_NoDup.
    + now rewrite keys_all_nodes.
    + apply In_all_nodes.
      exists road_key, group, (left_lane_key (lane_id node)), nl, i, nw. auto.
Qed.

(** C8: on an empty topology the builder returns the empty graph, and
    raises nothing. *)
Theorem empty_topology_empty_graph (fuel : nat) (carla_map : Map) (h : Heap) :
  get_topology carla_map = [] ->
  get_scene_layout fuel carla_map h = Ok ([], h).
Proof.
  intros Ht.
  unfold get_scene_layout, build_map_dict, seeds, sorted, bind.
  rewrite Ht. reflexivity.
Qed.


(** ** The trigger volume *)

(** C10: the ["trigger_volume"] entry of an actor has exactly 5 corners;
    the first and the last are both the projection of the local corner
    [(-x, -y)] of the extent, moved to the volume and to the actor: the
    polygon is closed. *)
Theorem trigger_volume_is_closed (carla_map : Map) (actor : Actor) :
  let bb := extent (trigger_volume actor) in
  let corner :=
    transform_to_geolocation carla_map
      (transform_point (get_transform actor)
         (vadd (Location_xy (fneg (x bb)) (fneg (y bb)))
               (bb_location (trigger_volume actor)))) in
  let entry := [longitude corner; latitude corner; altitude corner] in
  length (trigger_volume_field carla_map actor) = 5%nat /\
  nth_error (trigger_volume_field carla_map actor) 0 = Some entry /\
  nth_error (trigger_volume_field carla_map actor) 4 = Some entry.
Proof. repeat split. Qed.

(** ** Further facts *)

Lemma nth_error_update (h : Heap) (r : ref) (t t' : Transform F) :
  nth_error h r = Some t -> nth_error (update h r t') r = Some t'.
Proof.
  revert r. induction h as [|a h IH]; intros [|r]; simpl; try discriminate;
    auto.
Qed.

(** X1: [_lateral_shift] turns the object it is given: after the call the
    object has its yaw 90 higher, and a second call on the same object
    shifts along the heading turned by 180 degrees. *)
Theorem lateral_shift_turns_its_argument (r : ref) (t : Transform F)
    (shift shift' : F) (h : Heap) :
  nth_error h r = Some t ->
  _lateral_shift r shift h
  = Ok (shifted t shift, update h r (quarter_turn t)) /\
  (_lateral_shift r shift ;;; _lateral_shift r shift') h
  = Ok (shifted (quarter_turn t) shift',
        update (update h r (quarter_turn t)) r
               (quarter_turn (quarter_turn t))).
Proof.
  intros Hr.
  assert (E : forall t0 h0 s, nth_error h0 r = Some t0 ->
            _lateral_shift r s h0
            = Ok (shifted t0 s, update h0 r (quarter_turn t0))).
  { intros t0 h0 s Ht0. unfold _lateral_shift, bind, load, store.
    rewrite Ht0. cbv beta iota. rewrite Ht0. cbv beta iota.
    now rewrite (nth_error_update h0 r t0 _ Ht0). }
  split; [now apply E|]. unfold bind at 1. rewrite (E t h shift Hr).
  apply E. now apply nth_error_update with t.
Qed.

(** X2: the keys of the graph are the identities of the sampled waypoints,
    and every record of the graph was stored for a waypoint of [map_dict]:
    it carries the keys of its road and lane. *)
Theorem graph_keys_are_the_sampled_ids (fuel : nat) (carla_map : Map)
    (h h1 h' : Heap) (map_dict : MapDict) (g : Graph) :
  build_map_dict fuel carla_map h = Ok (map_dict, h1) ->
  get_scene_layout fuel carla_map h = Ok (g, h') ->
  (forall k, In k (Dict.keys g) <->
             In k (map wp_id (sampled_waypoints map_dict))) /\
  (forall k node,
     Dict.get k g = Some node ->
     exists group lane i w,
       Dict.get (road_id node) map_dict = Some group /\
       Dict.get (lane_id node) group = Some lane /\
       nth_error (waypoints lane) i = Some w /\ wp_id w = k).
Proof.
  intros Hb Hg. apply get_scene_layout_Ok in Hg.
  destruct Hg as (md & Emd & Hbuilt & ->). apply build_map_dict_Ok in Hb.
  assert (map_dict = md) by congruence. subst md. split.
  - intros k. rewrite <- (keys_all_nodes carla_map). split.
    + intros Hk. destruct (in_dec Z.eq_dec k (map fst
                                (all_nodes carla_map map_dict))) as [|Hn];
        [assumption|].
      exfalso. pose proof (get_store_all_other _ _ Hn []) as E.
      simpl in E. apply get_None_keys in E. now apply E.
    + intros Hk. destruct (get_store_all_key _ _ Hk []) as [node E].
      apply get_In in E. change (In (fst (k, node)) (map fst
                                   (graph_of carla_map map_dict))).
      now apply in_map.
  - intros k node Hk. apply get_store_all_In in Hk.
    destruct Hk as [Hk|Hk]; [|discriminate]. apply In_all_nodes in Hk.
    destruct Hk as (road_key & group & lane_key & lane & i & w & Hr & Hl & Hi
                    & -> & ->).
    destruct Hbuilt as [Hwk Hgroups].
    destruct (Hgroups road_key group Hr) as [Hwkg _].
    exists group, lane, i, w. cbn [road_id lane_id node_of].
    repeat split; auto using In_get.
Qed.

(** X3: every lane of [map_dict] is the sample of a seed of the topology, kept
    under the seed's road and lane: it starts with the seed and all its
    waypoints are on the road of its group. *)
Theorem lanes_stay_on_their_road (fuel : nat) (carla_map : Map)
    (h h1 : Heap) (map_dict : MapDict) :
  build_map_dict fuel carla_map h = Ok (map_dict, h1) ->
  forall road_key group lane_key lane,
    Dict.get road_key map_dict = Some group ->
    Dict.get lane_key group = Some lane ->
    (exists seed tail,
       In seed (map fst (get_topology carla_map)) /\
       waypoints lane = seed :: tail /\
       wp_road_id seed = road_key /\ wp_lane_id seed = lane_key) /\
    Forall (fun w => wp_road_id w = road_key) (waypoints lane).
Proof.
  intros Hb road_key group lane_key lane Eg El.
  destruct (lane_of_map_dict _ _ _ _ _ _ _ _ _ Hb Eg El)
    as (seed & Hseed & Hroad & Hlane & Hs & _).
  apply sample_sound in Hs. destruct Hs as (tail & Ews & Hw).
  split; [now exists seed, tail|]. rewrite Ews.
  constructor; [assumption|]. rewrite <- Hroad.
  now apply Walk_on_road with carla_map seed.
Qed.

(** X4: the loop of the sampler has no other exit than the end of the walk:
    where the walk of section 4.1 never leaves the road, no fuel is
    enough. *)
Theorem sampler_needs_a_finite_walk (carla_map : Map) (seed : Waypoint) :
  (forall tail, ~ Walk carla_map (wp_road_id seed) seed tail) ->
  forall fuel, sample fuel carla_map seed = OutOfFuel.
Proof.
  intros Hnone fuel.
  destruct (sample fuel carla_map seed) as [ws| e |] eqn:E; [| |reflexivity].
  - apply sample_sound in E. destruct E as (tail & _ & Hw).
    now destruct (Hnone tail).
  - now destruct (walk_never_raises _ _ _ _ _ _ E).
Qed.

(** X5: on a road with a single sampled lane every record has -1 as left
    and as right neighbour. *)
Theorem single_lane_has_no_neighbours (fuel : nat) (carla_map : Map)
    (h h1 : Heap) (map_dict : MapDict) :
  build_map_dict fuel carla_map h = Ok (map_dict, h1) ->
  forall road_key group lane_key lane i w g h2,
    Dict.get road_key map_dict = Some group ->
    Dict.keys group = [lane_key] ->
    Dict.get lane_key group = Some lane ->
    nth_error (waypoints lane) i = Some w ->
    exists node h3,
      add_node carla_map map_dict road_key lane_key lane g i h2
      = Ok (Dict.set (wp_id w) node g, h3) /\
      left_lane_waypoint_id node = -1 /\ right_lane_waypoint_id node = -1.
Proof.
  intros Hb road_key group lane_key lane i w g h2 Eg Ekeys El Ew.
  eexists _, _. split.
  - exact (add_node_emits _ _ _ _ _ _ _ _ _ _ _ g h2 Hb Eg El Ew).
  - assert (Hother : forall k, k <> lane_key -> Dict.get k group = None).
    { intros k Hk. apply get_None_keys. rewrite Ekeys. intros [<-|[]].
      now apply Hk. }
    cbn [left_lane_waypoint_id right_lane_waypoint_id node_of].
    unfold neighbour_id_of. rewrite !Hother; [now split | |].
    + unfold right_lane_key, truthy. destruct (lane_key + 1 =? 0); simpl; lia.
    + unfold left_lane_key, truthy. destruct (lane_key - 1 =? 0); simpl; lia.
Qed.

(** X6: no lane resolves to lane 0, and on nonzero lanes the two
    resolutions undo each other: the right of the left of [L] is [L], and
    the left of the right of [L] is [L]. *)
Theorem lane_keys_are_inverse (L : Z) :
  left_lane_key L <> 0 /\ right_lane_key L <> 0 /\
  (L <> 0 ->
   right_lane_key (left_lane_key L) = L /\
   left_lane_key (right_lane_key L) = L).
Proof.
  unfold left_lane_key, right_lane_key, truthy.
  destruct (Z.eqb_spec (L - 1) 0) as [E1|E1],
           (Z.eqb_spec (L + 1) 0) as [E2|E2]; simpl;
    (split; [lia|]; split; [lia|]); intros HL.
  - lia.
  - assert (L = 1) by lia. subst. now split.
  - assert (L = -1) by lia. subst. now split.
  - destruct (Z.eqb_spec (L - 1 + 1) 0), (Z.eqb_spec (L + 1 - 1) 0); simpl;
      lia.
Qed.

End SceneLayout.

Arguments Heap F : clear implicits.
Arguments M F A : clear implicits.
Arguments Waypoint F : clear implicits.
Arguments Map F : clear implicits.
Arguments Lane F : clear implicits.
Arguments RoadGroup F : clear implicits.
Arguments MapDict F : clear implicits.
Arguments NodeRecord F : clear implicits.
Arguments Graph F : clear implicits.
Arguments BoundingBox F : clear implicits.
Arguments Actor F : clear implicits.

(** ** A town on a grid *)

(** Floats as exact rationals, headings in multiples of 90 degrees. *)
#[export] Instance QFloat : PyFloat Q := {|
  fadd := fun a b => Qred (a + b)%Q;
  fmul := fun a b => Qred (a * b)%Q;
  fneg := fun a => Qred (- a)%Q;
  fltb := fun a b => match (a ?= b)%Q with Lt => true | _ => false end;
  float_lit := Qred
|}.

Definition heading (vx vy : Q) : Vector3D Q := {| x := vx; y := vy; z := 0%Q |}.

Definition grid_forward_vector (t : Transform Q) : Vector3D Q :=
  let a := yaw (rotation t) in
  if Qeq_bool a 0%Q then heading 1%Q 0%Q
  else if Qeq_bool a 90%Q then heading 0%Q 1%Q
  else if Qeq_bool a 180%Q then heading (-1)%Q 0%Q
  else if Qeq_bool a 270%Q then heading 0%Q (-1)%Q
  else heading 0%Q 0%Q.

#[export] Instance Grid : Geometry Q := {|
  get_forward_vector := grid_forward_vector;
  transform_point := fun t p => vadd (location t) p
|}.

(** A waypoint heading east, 4 wide. *)
Definition east (i road lane : Z) (px py pz : Q) : Waypoint Q :=
  {| wp_id := i; wp_road_id := road; wp_lane_id := lane;
     wp_lane_width := 4%Q;
     wp_pose := {| location := {| x := px; y := py; z := pz |};
                   rotation := {| pitch := 0%Q; yaw := 0%Q; roll := 0%Q |} |} |}.

Definition plane (p : Location Q) : GeoLocation Q :=
  {| latitude := y p; longitude := x p; altitude := z p |}.

(** Road 1 has lane 1 (waypoints 10, 11, 12) and, higher up, lane 2
    (waypoints 20, 21); road 2 follows lane 1, nothing follows lane 2. *)
Definition w10 : Waypoint Q := east 10 1 1 0%Q 0%Q 0%Q.
Definition w11 : Waypoint Q := east 11 1 1 1%Q 0%Q 0%Q.
Definition w12 : Waypoint Q := east 12 1 1 2%Q 0%Q 0%Q.
Definition w20 : Waypoint Q := east 20 1 2 0%Q 4%Q 1%Q.
Definition w21 : Waypoint Q := east 21 1 2 1%Q 4%Q 1%Q.
Definition w30 : Waypoint Q := east 30 2 1 3%Q 0%Q 0%Q.

Definition town_next (w : Waypoint Q) (distance : Q) : list (Waypoint Q) :=
  match wp_id w with
  | 10 => [w11]
  | 11 => [w12; w21]
  | 12 => [w30]
  | 20 => [w21]
  | _ => []
  end.

Definition town : Map Q :=
  {| get_topology := [(w20, w21); (w10, w12)];
     next := town_next;
     transform_to_geolocation := plane |}.

Definition town_lane1 : Lane Q := lane_of [w10; w11; w12].
Definition town_lane2 : Lane Q := lane_of [w20; w21].
Definition town_group : RoadGroup Q := [(1, town_lane1); (2, town_lane2)].
Definition town_map_dict : MapDict Q := [(1, town_group)].

Definition town_heap : Heap Q :=
  Eval vm_compute in
    match build_map_dict 5 town [] with
    | Ok (_, h) => h
    | _ => []
    end.

Definition town_graph : Graph Q :=
  Eval vm_compute in
    match get_scene_layout 5 town [] with
    | Ok (g, _) => g
    | _ => []
    end.

Definition town_heap' : Heap Q :=
  Eval vm_compute in
    match get_scene_layout 5 town [] with
    | Ok (_, h) => h
    | _ => []
    end.

(** Road 1 where lane 3 ends in lane 2: both seeds are followed by the
    waypoint 3 of lane 2. *)
Definition m1 : Waypoint Q := east 1 1 2 0%Q 0%Q 0%Q.
Definition m2 : Waypoint Q := east 2 1 3 0%Q 4%Q 0%Q.
Definition m3 : Waypoint Q := east 3 1 2 1%Q 0%Q 0%Q.

Definition merge_next (w : Waypoint Q) (distance : Q) : list (Waypoint Q) :=
  match wp_id w with
  | 1 => [m3]
  | 2 => [m3]
  | _ => []
  end.

Definition merge : Map Q :=
  {| get_topology := [(m1, m3); (m2, m3)];
     next := merge_next;
     transform_to_geolocation := plane |}.

Definition no_roads : Map Q :=
  {| get_topology := [];
     next := fun _ _ => [];
     transform_to_geolocation := plane |}.

Definition merge_graph : Graph Q :=
  Eval vm_compute in
    match get_scene_layout 5 merge [] with
    | Ok (g, _) => g
    | _ => []
    end.

Definition merge_heap' : Heap Q :=
  Eval vm_compute in
    match get_scene_layout 5 merge [] with
    | Ok (_, h) => h
    | _ => []
    end.

(** A road that closes on itself: the waypoint is its own successor. *)
Definition r1 : Waypoint Q := east 1 1 1 0%Q 0%Q 0%Q.

Definition ring : Map Q :=
  {| get_topology := [(r1, r1)];
     next := fun _ _ => [r1];
     transform_to_geolocation := plane |}.

(** Lane 2 of the town alone. *)
Definition alley : Map Q :=
  {| get_topology := [(w20, w21)];
     next := town_next;
     transform_to_geolocation := plane |}.

Definition alley_heap : Heap Q :=
  Eval vm_compute in
    match build_map_dict 5 alley [] with
    | Ok (_, h) => h
    | _ => []
    end.

Lemma town_map_dict_built :
  build_map_dict 5 town [] = Ok (town_map_dict, town_heap).
Proof. vm_compute. reflexivity. Qed.

Lemma town_graph_built :
  get_scene_layout 5 town [] = Ok (town_graph, town_heap').
Proof. vm_compute. reflexivity. Qed.

Lemma alley_map_dict_built :
  build_map_dict 5 alley [] = Ok ([(1, [(2, town_lane2)])], alley_heap).
Proof. vm_compute. reflexivity. Qed.


Lemma town_ids_distinct : NoDup (map wp_id (sampled_waypoints town_map_dict)).
Proof.
  simpl. repeat (constructor; [simpl; intuition discriminate|]). constructor.
Qed.

Lemma ring_never_ends (tail : list (Waypoint Q)) :
  ~ Walk ring (wp_road_id r1) r1 tail.
Proof.
  intros Hw. remember r1 as w eqn:Ew in Hw at 2.
  remember (wp_road_id r1) as road eqn:Er in Hw.
  induction Hw as [w En|w n others En Hr|w n others tail En Hr Hw IH];
    simpl in En; try discriminate.
  - injection En as <- <-. subst road. now apply Hr.
  - injection En as <- <-. now apply IH.
Qed.

(** The town's graph: lane 1 first (its seed is the lower one), then
    lane 2; lane 2 is the right neighbour of lane 1, index by index, and
    lane 1 has nothing to its left (lane -1 is not sampled). *)
Example town_graph_keys : Dict.keys town_graph = [10; 11; 12; 20; 21].
Proof. reflexivity. Qed.

Example town_node_11 :
  Dict.get 11 town_graph
  = Some {| road_id := 1;
            lane_id := 1;
            position := [0%Q; 1%Q; 0%Q];
            orientation := [0%Q; 0%Q; 0%Q];
            left_margin_position := [(-2)%Q; 1%Q; 0%Q];
            right_margin_position := [2%Q; 1%Q; 0%Q];
            next_waypoints_ids := [12];
            left_lane_waypoint_id := -1;
            right_lane_waypoint_id := 21 |}.
Proof. reflexivity. Qed.

Example town_node_12_has_no_right_neighbour :
  option_map right_lane_waypoint_id (Dict.get 12 town_graph) = Some (-1).
Proof. reflexivity. Qed.

Example merge_node_3 :
  option_map (fun node => (lane_id node, left_lane_waypoint_id node))
             (Dict.get 3 merge_graph)
  = Some (3, 3).
Proof. reflexivity. Qed.

(** A stop sign at (10, 20) whose trigger volume, 1 by 2, is centred 5
    ahead of it. *)
Definition stop_sign : Actor Q :=
  {| actor_id := 7;
     trigger_volume :=
       {| bb_location := {| x := 5%Q; y := 0%Q; z := 0%Q |};
          extent := {| x := 1%Q; y := 2%Q; z := 0%Q |} |};
     get_transform :=
       {| location := {| x := 10%Q; y := 20%Q; z := 0%Q |};
          rotation := {| pitch := 0%Q; yaw := 0%Q; roll := 0%Q |} |} |}.

Example stop_sign_trigger_volume :
  trigger_volume_field town stop_sign
  = [[14%Q; 18%Q; 0%Q]; [16%Q; 18%Q; 0%Q]; [16%Q; 22%Q; 0%Q];
     [14%Q; 22%Q; 0%Q]; [14%Q; 18%Q; 0%Q]].
Proof. reflexivity. Qed.

(** ** The theorems at the town *)

Lemma sampler_follows_the_road_witness :
  (exists tail,
     [w10; w11; w12] = w10 :: tail /\ Walk town 1 w10 tail /\
     Forall (fun w => wp_road_id w = 1) [w10; w11; w12]) /\
  sample 2 town w10 = Ok [w10; w11; w12] /\
  sample 0 town w12 = Ok [w12] /\
  sample 0 town w21 = Ok [w21].
Proof.
  split; [|split; [|split]].
  - apply (proj1 (proj2 (sampler_follows_the_road town w10)) 5%nat).
    vm_compute. reflexivity.
  - apply (proj1 (proj2 (proj2 (sampler_follows_the_road town w10)))
             [w11; w12]); [|simpl; lia].
    apply Walk_append with (others := []); [reflexivity | reflexivity|].
    apply Walk_append with (others := [w21]); [reflexivity | reflexivity|].
    apply Walk_road_change with (n := w30) (others := []);
      [reflexivity | discriminate].
  - apply (proj2 (proj2 (proj2 (proj2 (sampler_follows_the_road town w12))))).
    right. exists w30, []. split; [reflexivity | discriminate].
  - apply (proj2 (proj2 (proj2 (proj2 (sampler_follows_the_road town w21))))).
    left. reflexivity.
Defined.

(** C1 as stated fails on a road that closes on itself: the seed of
    [ring] is drawn from the topology, its successor at every step is a
    waypoint of the same road, and the sampler returns no sequence for it,
    whatever the fuel. *)
Lemma ring_seed_yields_no_sequence :
  In r1 (map fst (get_topology ring)) /\
  (forall fuel, sample fuel ring r1 = OutOfFuel) /\
  ~ (exists fuel ws, sample fuel ring r1 = Ok ws).
Proof.
  assert (Hnone : forall fuel ws, sample fuel ring r1 <> Ok ws).
  { intros fuel ws E. apply sample_sound in E.
    destruct E as (tail & _ & Hw). exact (ring_never_ends tail Hw). }
  split; [now left|]. split.
  - intros fuel.
    destruct (sample fuel ring r1) as [ws| e |] eqn:E; [| |reflexivity].
    + now destruct (Hnone fuel ws).
    + now destruct (walk_never_raises _ _ _ _ _ _ E).
  - intros (fuel & ws & E). exact (Hnone fuel ws E).
Qed.

Lemma neighbour_ids_or_sentinel_witness :
  exists node h3,
    add_node town town_map_dict 1 1 town_lane1 [] 1 []
    = Ok (Dict.set 11 node [], h3) /\
    left_lane_waypoint_id node = -1 /\ right_lane_waypoint_id node = 21.
Proof.
  destruct (proj2 (neighbour_ids_or_sentinel 5 town [])
              town_map_dict town_heap town_map_dict_built
              1 town_group 1 town_lane1 1%nat w11 [] []
              eq_refl eq_refl eq_refl)
    as (node & h3 & E & (_ & HL & _) & (HR & _)).
  exists node, h3. split; [exact E|]. split.
  - apply HL. reflexivity.
  - apply (HR town_lane2 w21); reflexivity.
Defined.

Lemma successors_are_the_tail_witness :
  exists node h3,
    add_node town town_map_dict 1 1 town_lane1 [] 0 []
    = Ok (Dict.set 10 node [], h3) /\
    nth_error (next_waypoints_ids node) 0 = Some 11 /\
    nth_error (next_waypoints_ids node) 1 = Some 12 /\
    length (next_waypoints_ids node) = 2%nat.
Proof.
  destruct (successors_are_the_tail 5 town [] town_heap town_map_dict
              town_map_dict_built 1 town_group 1 town_lane1 0%nat w10 [] []
              eq_refl eq_refl eq_refl)
    as (node & h3 & E & Hnth & Hlen & _).
  exists node, h3. split; [exact E|].
  split; [exact (Hnth 0%nat)|]. split; [exact (Hnth 1%nat) | exact Hlen].
Defined.

Lemma lane_sequences_aligned_witness :
  length (left_marking town_lane1) = 3%nat /\
  length (right_marking town_lane1) = 3%nat /\
  exists l r,
    nth_error (left_marking town_lane1) 2 = Some l /\
    nth_error (right_marking town_lane1) 2 = Some r /\
    (exists h', bind (transform w12)
                  (fun t => _lateral_shift t (fmul (fneg 4%Q) half)) []
                = Ok (l, h')) /\
    (exists h', bind (transform w12)
                  (fun t => _lateral_shift t (fmul 4%Q half)) []
                = Ok (r, h')).
Proof.
  destruct (lane_sequences_aligned 5 town [] town_heap town_map_dict
              town_map_dict_built 1 town_group 1 town_lane1
              eq_refl eq_refl)
    as (HL & HR & Hi).
  split; [exact HL|]. split; [exact HR|].
  destruct (Hi 2%nat w12 eq_refl) as (l & r & El & Er & Hs).
  exists l, r. split; [exact El|]. split; [exact Er|]. exact (Hs []).
Defined.

Lemma markings_leave_the_pose_witness :
  exists node h3,
    add_node town town_map_dict 1 1 town_lane1 [] 0 []
    = Ok (Dict.set 10 node [], h3) /\
    orientation node = [0%Q; 0%Q; 0%Q] /\
    left_margin_position node = [(-2)%Q; 0%Q; 0%Q] /\
    right_margin_position node = [2%Q; 0%Q; 0%Q].
Proof.
  destruct (proj2 (markings_leave_the_pose town [] [])
              5%nat town_map_dict town_heap 1 town_group 1 town_lane1
              0%nat w10 [] [] town_map_dict_built eq_refl eq_refl eq_refl)
    as (node & h3 & E & Ho & _ & Hl & Hr).
  exists node, h3. split; [exact E|]. split; [exact Ho|].
  split; [exact Hl | exact Hr].
Defined.

Lemma left_neighbour_is_a_key_witness :
  (exists node', Dict.get 11 town_graph = Some node') /\
  left_references_resolve town_graph.
Proof.
  destruct (left_neighbour_is_a_key 5 town [] town_heap' town_graph
              town_graph_built) as (Hkey & Hlane).
  split.
  - apply (Hkey 21 (node_of town town_group 1 2 [w20; w21] 1 w21)).
    + vm_compute. reflexivity.
    + discriminate.
  - apply (Hlane town_map_dict town_heap town_map_dict_built).
    exact town_ids_distinct.
Defined.

(** C7 as stated fails where lane 3 ends in lane 2: the waypoint 3 is
    sampled on both lanes, and its record, stored last for lane 3, names
    itself as left neighbour. *)
Lemma merged_lane_breaks_left_reference :
  exists g h',
    get_scene_layout 5 merge [] = Ok (g, h') /\
    ~ left_references_resolve g.
Proof.
  exists merge_graph, merge_heap'. split; [vm_compute; reflexivity|].
  intros Hc.
  assert (exists node,
             Dict.get 3 merge_graph = Some node /\
             left_lane_waypoint_id node = 3 /\ lane_id node = 3)
    as (node & Hn & Hl & Hid) by (eexists; repeat split; reflexivity).
  destruct (Hc 3 node Hn) as (node' & Hn' & Hlane).
  - rewrite Hl. discriminate.
  - rewrite Hl, Hn in Hn'. injection Hn' as <-. rewrite Hid in Hlane.
    discriminate Hlane.
Qed.

Lemma empty_topology_empty_graph_witness :
  get_scene_layout 0 no_roads [] = Ok ([], []).
Proof. apply (empty_topology_empty_graph 0 no_roads []). reflexivity. Defined.


Lemma lateral_shift_turns_its_argument_witness :
  _lateral_shift 0%nat 2%Q [wp_pose w10]
  = Ok ({| x := 0%Q; y := 2%Q; z := 0%Q |}, [quarter_turn (wp_pose w10)]) /\
  bind (_lateral_shift 0%nat 2%Q) (fun _ => _lateral_shift 0%nat 2%Q)
       [wp_pose w10]
  = Ok ({| x := (-2)%Q; y := 0%Q; z := 0%Q |},
        [quarter_turn (quarter_turn (wp_pose w10))]).
Proof.
  exact (lateral_shift_turns_its_argument 0%nat (wp_pose w10) 2%Q 2%Q
           [wp_pose w10] eq_refl).
Defined.

Lemma graph_keys_are_the_sampled_ids_witness :
  In 21 (Dict.keys town_graph) /\
  exists group lane i w,
    Dict.get 1 town_map_dict = Some group /\
    Dict.get 2 group = Some lane /\
    nth_error (waypoints lane) i = Some w /\ wp_id w = 21.
Proof.
  destruct (graph_keys_are_the_sampled_ids 5 town [] town_heap town_heap'
              town_map_dict town_graph town_map_dict_built town_graph_built)
    as (Hkeys & Hnodes).
  split.
  - apply Hkeys. simpl. tauto.
  - assert (E : Dict.get 21 town_graph
                = Some (node_of town town_group 1 2 [w20; w21] 1 w21))
      by (vm_compute; reflexivity).
    destruct (Hnodes 21 _ E) as (group & lane & i & w & H).
    exists group, lane, i, w. exact H.
Defined.

Lemma lanes_stay_on_their_road_witness :
  Forall (fun w => wp_road_id w = 1) (waypoints town_lane2).
Proof.
  exact (proj2 (lanes_stay_on_their_road 5 town [] town_heap town_map_dict
                  town_map_dict_built 1 town_group 2 town_lane2
                  eq_refl eq_refl)).
Defined.

Lemma sampler_needs_a_finite_walk_witness :
  sample 1000 ring r1 = OutOfFuel.
Proof.
  exact (sampler_needs_a_finite_walk ring r1 ring_never_ends 1000%nat).
Defined.

Lemma single_lane_has_no_neighbours_witness :
  exists node h3,
    add_node alley [(1, [(2, town_lane2)])] 1 2 town_lane2 [] 1 []
    = Ok (Dict.set 21 node [], h3) /\
    left_lane_waypoint_id node = -1 /\ right_lane_waypoint_id node = -1.
Proof.
  exact (single_lane_has_no_neighbours 5 alley [] alley_heap
           [(1, [(2, town_lane2)])] alley_map_dict_built
           1 [(2, town_lane2)] 2 town_lane2 1%nat w21 [] []
           eq_refl eq_refl eq_refl eq_refl).
Defined.

Lemma lane_keys_are_inverse_witness :
  right_lane_key (left_lane_key 1) = 1 /\
  left_lane_key (right_lane_key 1) = 1.
Proof.
  apply (proj2 (proj2 (lane_keys_are_inverse 1))). discriminate.
Defined.

(** * The snapshot of the actors: [get_dynamic_objects] *)

From Stdlib Require String Ascii.
Import String.StringSyntax Ascii.AsciiSyntax.
Delimit Scope string_scope with string.
Delimit Scope char_scope with char.

(** ** Python strings *)

(** [sub in s]. *)
Fixpoint contains (sub s : String.string) : bool :=
  String.prefix sub s
  || match s with
     | String.EmptyString => false
     | String.String _ s' => contains sub s'
     end.

(** [s.split(sep)] for a separator of one character. *)
Fixpoint split_on (sep : Ascii.ascii) (s : String.string)
    : list String.string :=
  match s with
  | String.EmptyString => [String.EmptyString]
  | String.String c s' =>
      if Ascii.eqb c sep then String.EmptyString :: split_on sep s'
      else match split_on sep s' with
           | [] => [String.String c String.EmptyString]
           | word :: words => String.String c word :: words
           end
  end.

(** [d[k]] on a dictionary of strings; [None] is Python's [KeyError]. *)
Fixpoint attribute (k : String.string)
    (d : list (String.string * String.string)) : option String.string :=
  match d with
  | [] => None
  | (k', v) :: d' => if String.eqb k k' then Some v else attribute k d'
  end.

(** ** Exceptions *)

Module Py.
Inductive error : Type := AttributeError | IndexError | KeyError | ValueError.
End Py.

Inductive outcome (A : Type) : Type :=
| Returns (a : A)
| Raises (e : Py.error).

Arguments Returns {A} a.
Arguments Raises {A} e.

Definition and_then {A B} (o : outcome A) (k : A -> outcome B) : outcome B :=
  match o with
  | Returns a => k a
  | Raises e => Raises e
  end.

(** A [for] loop that updates one local variable. *)
Fixpoint for_each {A B} (f : B -> A -> outcome B) (l : list A) (b : B)
    : outcome B :=
  match l with
  | [] => Returns b
  | a :: l' => and_then (f b a) (for_each f l')
  end.

(** [random.choice(seq)] is [seq[i]] for an index [i] drawn below
    [len(seq)]; the draw is the argument [r], taken modulo the length. *)
Definition choice {A} (r : nat) (seq : list A) : outcome A :=
  match nth_error seq (r mod length seq) with
  | Some a => Returns a
  | None => Raises Py.IndexError
  end.

Section DynamicObjects.
Context {F : Type} `{PyFloat F} `{Geometry F}.

Notation "x <- c ;; k" := (and_then c (fun x => k))
  (at level 61, c at next level, right associativity).

(** ** The world *)

(** A [carla.Actor] of the world. Which attributes an actor has depends on
    its class: a missing one is [None], and reading it is Python's
    [AttributeError]. [state] is [int(actor.state)]. *)
Record WorldActor : Type := {
  wa_id : Z;
  type_id : String.string;
  attributes : list (String.string * String.string);
  wa_transform : Transform F;
  get_location : Location F;
  bounding_box : option (BoundingBox F);
  wa_trigger_volume : option (BoundingBox F);
  state : option Z
}.

(** [carla_map] with [get_waypoint(location)], which may find no waypoint,
    and Python's [int(str)], which may reject the string. *)
Record RoadMap : Type := {
  road_map : Map F;
  get_waypoint : Location F -> option (Waypoint F)
}.

Class Builtins : Type := { int_of_str : String.string -> option Z }.

Context `{Builtins}.

Definition read {A} (field : option A) : outcome A :=
  match field with
  | Some a => Returns a
  | None => Raises Py.AttributeError
  end.

(** ** Lines 122-130 and 132-142 *)

Definition _get_bounding_box (carla_map : RoadMap) (actor : WorldActor)
    : outcome (list (GeoLocation F)) :=
  box <- read (bounding_box actor) ;;
  let bb := extent box in
  let corners :=
    [Location_xy (fneg (x bb)) (fneg (y bb)); Location_xy (x bb) (fneg (y bb));
     Location_xy (x bb) (y bb); Location_xy (fneg (x bb)) (y bb)] in
  let t := wa_transform actor in
  let corners := map (transform_point t) corners in
  Returns (map (transform_to_geolocation (road_map carla_map)) corners).

(** [_get_trigger_volume] on an actor of the world. *)
Definition trigger_volume_of (carla_map : RoadMap) (actor : WorldActor)
    : outcome (list (GeoLocation F)) :=
  volume <- read (wa_trigger_volume actor) ;;
  Returns (_get_trigger_volume (road_map carla_map)
             {| actor_id := wa_id actor; trigger_volume := volume;
                get_transform := wa_transform actor |}).

(** [[[v.longitude, v.latitude, v.altitude] for v in corners]]. *)
Definition corner_list (corners : list (GeoLocation F)) : list (list F) :=
  map (fun v => [longitude v; latitude v; altitude v]) corners.

(** ** Lines 144-166 *)

Record Split : Type := {
  vehicles : list WorldActor;
  traffic_lights : list WorldActor;
  speed_limits : list WorldActor;
  walkers : list WorldActor;
  stops : list WorldActor;
  static_obstacles : list WorldActor
}.

Definition split_actor (s : Split) (actor : WorldActor) : Split :=
  if contains "vehicle"%string (type_id actor) then
    {| vehicles := vehicles s ++ [actor];
       traffic_lights := traffic_lights s; speed_limits := speed_limits s;
       walkers := walkers s; stops := stops s;
       static_obstacles := static_obstacles s |}
  else if contains "traffic_light"%string (type_id actor) then
    {| vehicles := vehicles s;
       traffic_lights := traffic_lights s ++ [actor];
       speed_limits := speed_limits s;
       walkers := walkers s; stops := stops s;
       static_obstacles := static_obstacles s |}
  else if contains "speed_limit"%string (type_id actor) then
    {| vehicles := vehicles s; traffic_lights := traffic_lights s;
       speed_limits := speed_limits s ++ [actor];
       walkers := walkers s; stops := stops s;
       static_obstacles := static_obstacles s |}
  else if contains "walker"%string (type_id actor) then
    {| vehicles := vehicles s; traffic_lights := traffic_lights s;
       speed_limits := speed_limits s;
       walkers := walkers s ++ [actor]; stops := stops s;
       static_obstacles := static_obstacles s |}
  else if contains "stop"%string (type_id actor) then
    {| vehicles := vehicles s; traffic_lights := traffic_lights s;
       speed_limits := speed_limits s;
       walkers := walkers s; stops := stops s ++ [actor];
       static_obstacles := static_obstacles s |}
  else if contains "static.prop"%string (type_id actor) then
    {| vehicles := vehicles s; traffic_lights := traffic_lights s;
       speed_limits := speed_limits s;
       walkers := walkers s; stops := stops s;
       static_obstacles := static_obstacles s ++ [actor] |}
  else s.

Definition _split_actors (actors : list WorldActor) : Split :=
  fold_left split_actor actors
    {| vehicles := []; traffic_lights := []; speed_limits := [];
       walkers := []; stops := []; static_obstacles := [] |}.

(** ** Lines 169-263: one dictionary per kind of actor *)

(** The loop the seven getters share: an entry per actor, stored under the
    actor's [id]. *)
Definition collect {R} (entry : WorldActor -> outcome R)
    (actors : list WorldActor) : outcome (Dict.t R) :=
  for_each (fun d actor =>
              e <- entry actor ;; Returns (Dict.set (wa_id actor) e d))
           actors [].

Definition gnss (carla_map : RoadMap) (p : Location F) : list F :=
  geo_list (transform_to_geolocation (road_map carla_map) p).

Record StopRecord : Type := {
  stop_id : Z;
  stop_position : list F;
  stop_trigger_volume : list (list F)
}.

Definition get_stop_signals (carla_map : RoadMap) (stops : list WorldActor)
    : outcome (Dict.t StopRecord) :=
  collect (fun stop =>
    let st_transform := wa_transform stop in
    volume <- trigger_volume_of carla_map stop ;;
    Returns {| stop_id := wa_id stop;
               stop_position := gnss carla_map (location st_transform);
               stop_trigger_volume := corner_list volume |}) stops.

Record TrafficLightRecord : Type := {
  tl_id : Z;
  tl_state : Z;
  tl_position : list F;
  tl_trigger_volume : list (list F)
}.

Definition get_traffic_lights (carla_map : RoadMap)
    (traffic_lights : list WorldActor) : outcome (Dict.t TrafficLightRecord) :=
  collect (fun traffic_light =>
    let tl_transform := wa_transform traffic_light in
    st <- read (state traffic_light) ;;
    volume <- trigger_volume_of carla_map traffic_light ;;
    Returns {| tl_id := wa_id traffic_light;
               tl_state := st;
               tl_position := gnss carla_map (location tl_transform);
               tl_trigger_volume := corner_list volume |}) traffic_lights.

(** The entry of a vehicle and of a walker. *)
Record BodyRecord : Type := {
  body_id : Z;
  body_position : list F;
  body_orientation : list F;
  body_bounding_box : list (list F)
}.

Definition body_entry (carla_map : RoadMap) (actor : WorldActor)
    : outcome BodyRecord :=
  let v_transform := wa_transform actor in
  box <- _get_bounding_box carla_map actor ;;
  Returns {| body_id := wa_id actor;
             body_position := gnss carla_map (location v_transform);
             body_orientation := [roll (rotation v_transform);
                                  pitch (rotation v_transform);
                                  yaw (rotation v_transform)];
             body_bounding_box := corner_list box |}.

Definition get_vehicles (carla_map : RoadMap) (vehicles : list WorldActor)
    : outcome (Dict.t BodyRecord) :=
  collect (body_entry carla_map) vehicles.

Definition get_walkers (carla_map : RoadMap) (walkers : list WorldActor)
    : outcome (Dict.t BodyRecord) :=
  collect (body_entry carla_map) walkers.

Record HeroRecord : Type := {
  hero_id : Z;
  hero_position : list F;
  hero_road_id : Z;
  hero_lane_id : Z
}.

Definition get_hero_vehicle (carla_map : RoadMap)
    (hero_vehicle : option WorldActor) : outcome (option HeroRecord) :=
  match hero_vehicle with
  | None => Returns None
  | Some hero_vehicle =>
      hero_waypoint <-
        read (get_waypoint carla_map (get_location hero_vehicle)) ;;
      let hero_transform := wa_transform hero_vehicle in
      Returns (Some {| hero_id := wa_id hero_vehicle;
                       hero_position :=
                         gnss carla_map (location hero_transform);
                       hero_road_id := wp_road_id hero_waypoint;
                       hero_lane_id := wp_lane_id hero_waypoint |})
  end.

Record SpeedLimitRecord : Type := {
  sl_id : Z;
  sl_position : list F;
  sl_speed : Z
}.

(** [int(type_id.split('.')[2])]. *)
Definition speed_of (type_id : String.string) : outcome Z :=
  match nth_error (split_on "."%char type_id) 2 with
  | None => Raises Py.IndexError
  | Some word =>
      match int_of_str word with
      | Some n => Returns n
      | None => Raises Py.ValueError
      end
  end.

Definition get_speed_limits (carla_map : RoadMap)
    (speed_limits : list WorldActor) : outcome (Dict.t SpeedLimitRecord) :=
  collect (fun speed_limit =>
    let sl_transform := wa_transform speed_limit in
    speed <- speed_of (type_id speed_limit) ;;
    Returns {| sl_id := wa_id speed_limit;
               sl_position := gnss carla_map (location sl_transform);
               sl_speed := speed |}) speed_limits.

Record StaticRecord : Type := {
  static_id : Z;
  static_position : list F
}.

Definition get_static_obstacles (carla_map : RoadMap)
    (static_obstacles : list WorldActor) : outcome (Dict.t StaticRecord) :=
  collect (fun static_prop =>
    let sl_transform := wa_transform static_prop in
    Returns {| static_id := wa_id static_prop;
               static_position := gnss carla_map (location sl_transform) |})
    static_obstacles.

(** ** Lines 265-280 *)

(** [[vehicle for vehicle in vehicles if 'vehicle' in vehicle.type_id and
    vehicle.attributes['role_name'] == 'hero']]. *)
Fixpoint hero_vehicles_of (vehicles : list WorldActor)
    : outcome (list WorldActor) :=
  match vehicles with
  | [] => Returns []
  | vehicle :: vehicles' =>
      keep <- (if contains "vehicle"%string (type_id vehicle) then
                 match attribute "role_name"%string (attributes vehicle) with
                 | Some role => Returns (String.eqb role "hero"%string)
                 | None => Raises Py.KeyError
                 end
               else Returns false) ;;
      rest <- hero_vehicles_of vehicles' ;;
      Returns (if keep then vehicle :: rest else rest)
  end.

Record Snapshot : Type := {
  snap_vehicles : Dict.t BodyRecord;
  snap_hero_vehicle : option HeroRecord;
  snap_walkers : Dict.t BodyRecord;
  snap_traffic_lights : Dict.t TrafficLightRecord;
  snap_stop_signs : Dict.t StopRecord;
  snap_speed_limits : Dict.t SpeedLimitRecord;
  snap_static_obstacles : Dict.t StaticRecord
}.

(** [carla_world.get_actors()] is [actors]; [r] is the draw of
    [random.choice]. *)
Definition get_dynamic_objects (r : nat) (actors : list WorldActor)
    (carla_map : RoadMap) : outcome Snapshot :=
  let s := _split_actors actors in
  hero_vehicles <- hero_vehicles_of (vehicles s) ;;
  hero <- (if (length hero_vehicles =? 0)%nat then Returns None
           else h <- choice r hero_vehicles ;; Returns (Some h)) ;;
  v <- get_vehicles carla_map (vehicles s) ;;
  hv <- get_hero_vehicle carla_map hero ;;
  w <- get_walkers carla_map (walkers s) ;;
  tl <- get_traffic_lights carla_map (traffic_lights s) ;;
  st <- get_stop_signals carla_map (stops s) ;;
  sl <- get_speed_limits carla_map (speed_limits s) ;;
  so <- get_static_obstacles carla_map (static_obstacles s) ;;
  Returns {| snap_vehicles := v; snap_hero_vehicle := hv; snap_walkers := w;
             snap_traffic_lights := tl; snap_stop_signs := st;
             snap_speed_limits := sl; snap_static_obstacles := so |}.

(** ** Strings *)

Lemma prefix_spec (sub s : String.string) :
  String.prefix sub s = true <-> exists b, s = String.append sub b.
Proof.
  revert s. induction sub as [|c sub IH]; intros s; simpl.
  - split; [intros _; now exists s | intros _; now destruct s].
  - destruct s as [|c' s]; simpl.
    + split; [discriminate | intros [b Hb]; discriminate].
    + destruct (Ascii.ascii_dec c c') as [->|Hne].
      * rewrite IH. split; intros [b Hb]; exists b; congruence.
      * split; [discriminate | intros [b Hb]; congruence].
Qed.

(** [sub in s] holds exactly when [s] is [a + sub + b]. *)
Lemma contains_spec (sub s : String.string) :
  contains sub s = true <->
  exists a b, s = String.append a (String.append sub b).
Proof.
  induction s as [|c s IH]; cbn [contains].
  - rewrite orb_false_r, prefix_spec. split.
    + intros [b Hb]. now exists String.EmptyString, b.
    + intros ([|c a] & b & Hab); [now exists b | discriminate].
  - rewrite orb_true_iff, prefix_spec, IH. split.
    + intros [[b Hb]|(a & b & Hab)].
      * now exists String.EmptyString, b.
      * exists (String.String c a), b. simpl. now rewrite Hab.
    + intros ([|c' a] & b & Hab); simpl in Hab.
      * left. now exists b.
      * right. exists a, b. congruence.
Qed.

Fixpoint count_char (c : Ascii.ascii) (s : String.string) : nat :=
  match s with
  | String.EmptyString => 0
  | String.String c' s' =>
      (if Ascii.eqb c' c then 1 else 0) + count_char c s'
  end.

Lemma split_on_length (sep : Ascii.ascii) (s : String.string) :
  length (split_on sep s) = S (count_char sep s).
Proof.
  induction s as [|c s IH]; simpl; [reflexivity|].
  destruct (Ascii.eqb c sep); simpl; [now rewrite IH|].
  destruct (split_on sep s); simpl in *; congruence.
Qed.

(** Joining the words with the separator gives the string back. *)
Lemma split_on_join (sep : Ascii.ascii) (s : String.string) :
  String.concat (String.String sep String.EmptyString) (split_on sep s) = s.
Proof.
  induction s as [|c s IH]; simpl; [reflexivity|].
  destruct (Ascii.eqb_spec c sep) as [->|Hne].
  - simpl. destruct (split_on sep s) as [|w ws] eqn:E.
    + pose proof (split_on_length sep s) as Hl. rewrite E in Hl. discriminate.
    + simpl in *. now rewrite IH.
  - destruct (split_on sep s) as [|w ws] eqn:E.
    + pose proof (split_on_length sep s) as Hl. rewrite E in Hl. discriminate.
    + simpl in *. destruct ws; simpl in *; now rewrite <- IH.
Qed.

Lemma split_on_plain (sep : Ascii.ascii) (s : String.string) :
  count_char sep s = 0%nat -> split_on sep s = [s].
Proof.
  induction s as [|c s IH]; simpl; [reflexivity|].
  destruct (Ascii.eqb c sep); simpl; [discriminate|].
  intros Hc. now rewrite IH.
Qed.

Lemma split_on_append (sep : Ascii.ascii) (a b : String.string) :
  count_char sep a = 0%nat ->
  split_on sep (String.append a (String.String sep b)) = a :: split_on sep b.
Proof.
  induction a as [|c a IH]; simpl.
  - now rewrite Ascii.eqb_refl.
  - destruct (Ascii.eqb c sep); simpl; [discriminate|].
    intros Hc. now rewrite IH.
Qed.

(** ** The split of the actors *)

Definition tagged (tag : String.string) (actor : WorldActor) : bool :=
  contains tag (type_id actor).

(** The tests of the [elif] chain, each with the earlier ones failed. *)
Definition goes_to_vehicles (a : WorldActor) : bool := tagged "vehicle"%string a.

Definition goes_to_traffic_lights (a : WorldActor) : bool :=
  negb (tagged "vehicle"%string a) && tagged "traffic_light"%string a.

Definition goes_to_speed_limits (a : WorldActor) : bool :=
  negb (tagged "vehicle"%string a) && negb (tagged "traffic_light"%string a)
  && tagged "speed_limit"%string a.

Definition goes_to_walkers (a : WorldActor) : bool :=
  negb (tagged "vehicle"%string a) && negb (tagged "traffic_light"%string a)
  && negb (tagged "speed_limit"%string a) && tagged "walker"%string a.

Definition goes_to_stops (a : WorldActor) : bool :=
  negb (tagged "vehicle"%string a) && negb (tagged "traffic_light"%string a)
  && negb (tagged "speed_limit"%string a) && negb (tagged "walker"%string a)
  && tagged "stop"%string a.

Definition goes_to_static_obstacles (a : WorldActor) : bool :=
  negb (tagged "vehicle"%string a) && negb (tagged "traffic_light"%string a)
  && negb (tagged "speed_limit"%string a) && negb (tagged "walker"%string a)
  && negb (tagged "stop"%string a) && tagged "static.prop"%string a.

Definition one_if (b : bool) (a : WorldActor) : list WorldActor :=
  if b then [a] else [].

Lemma split_actor_appends (s : Split) (a : WorldActor) :
  vehicles (split_actor s a) = vehicles s ++ one_if (goes_to_vehicles a) a /\
  traffic_lights (split_actor s a)
  = traffic_lights s ++ one_if (goes_to_traffic_lights a) a /\
  speed_limits (split_actor s a)
  = speed_limits s ++ one_if (goes_to_speed_limits a) a /\
  walkers (split_actor s a) = walkers s ++ one_if (goes_to_walkers a) a /\
  stops (split_actor s a) = stops s ++ one_if (goes_to_stops a) a /\
  static_obstacles (split_actor s a)
  = static_obstacles s ++ one_if (goes_to_static_obstacles a) a.
Proof.
  unfold split_actor, goes_to_vehicles, goes_to_traffic_lights,
    goes_to_speed_limits, goes_to_walkers, goes_to_stops,
    goes_to_static_obstacles, tagged.
  destruct (contains "vehicle"%string (type_id a));
    [|destruct (contains "traffic_light"%string (type_id a));
      [|destruct (contains "speed_limit"%string (type_id a));
        [|destruct (contains "walker"%string (type_id a));
          [|destruct (contains "stop"%string (type_id a));
            [|destruct (contains "static.prop"%string (type_id a))]]]]];
    simpl; rewrite ?app_nil_r; repeat split.
Qed.

Lemma filter_cons_one_if (p : WorldActor -> bool) (a : WorldActor)
    (l : list WorldActor) :
  filter p (a :: l) = one_if (p a) a ++ filter p l.
Proof. simpl. unfold one_if. now destruct (p a). Qed.

Lemma fold_split_actor (l : list WorldActor) :
  forall s,
    vehicles (fold_left split_actor l s)
    = vehicles s ++ filter goes_to_vehicles l /\
    traffic_lights (fold_left split_actor l s)
    = traffic_lights s ++ filter goes_to_traffic_lights l /\
    speed_limits (fold_left split_actor l s)
    = speed_limits s ++ filter goes_to_speed_limits l /\
    walkers (fold_left split_actor l s)
    = walkers s ++ filter goes_to_walkers l /\
    stops (fold_left split_actor l s) = stops s ++ filter goes_to_stops l /\
    static_obstacles (fold_left split_actor l s)
    = static_obstacles s ++ filter goes_to_static_obstacles l.
Proof.
  induction l as [|a l IH]; intros s.
  - simpl. rewrite !app_nil_r. repeat split.
  - cbn [fold_left]. rewrite !filter_cons_one_if, !app_assoc.
    destruct (split_actor_appends s a) as (E1 & E2 & E3 & E4 & E5 & E6).
    rewrite <- E1, <- E2, <- E3, <- E4, <- E5, <- E6. apply IH.
Qed.

(** X7: the six lists of [_split_actors] are the actors, in their order,
    whose [type_id] contains the tag of the list and none of the tags
    tested before it: ['vehicle'], then ['traffic_light'], ['speed_limit'],
    ['walker'], ['stop'], ['static.prop']. An actor is in one list at most,
    and an actor with none of the tags is in none. *)
Theorem split_actors_by_first_tag (actors : list WorldActor) :
  let s := _split_actors actors in
  vehicles s = filter (tagged "vehicle"%string) actors /\
  traffic_lights s
  = filter (fun a => negb (tagged "vehicle"%string a)
                     && tagged "traffic_light"%string a) actors /\
  speed_limits s
  = filter (fun a => negb (tagged "vehicle"%string a)
                     && negb (tagged "traffic_light"%string a)
                     && tagged "speed_limit"%string a) actors /\
  walkers s
  = filter (fun a => negb (tagged "vehicle"%string a)
                     && negb (tagged "traffic_light"%string a)
                     && negb (tagged "speed_limit"%string a)
                     && tagged "walker"%string a) actors /\
  stops s
  = filter (fun a => negb (tagged "vehicle"%string a)
                     && negb (tagged "traffic_light"%string a)
                     && negb (tagged "speed_limit"%string a)
                     && negb (tagged "walker"%string a)
                     && tagged "stop"%string a) actors /\
  static_obstacles s
  = filter (fun a => negb (tagged "vehicle"%string a)
                     && negb (tagged "traffic_light"%string a)
                     && negb (tagged "speed_limit"%string a)
                     && negb (tagged "walker"%string a)
                     && negb (tagged "stop"%string a)
                     && tagged "static.prop"%string a) actors /\
  (length (vehicles s) + length (traffic_lights s) + length (speed_limits s)
   + length (walkers s) + length (stops s) + length (static_obstacles s)
   <= length actors)%nat.
Proof.
  intros s. subst s. unfold _split_actors.
  destruct (fold_split_actor actors
              {| vehicles := []; traffic_lights := []; speed_limits := [];
                 walkers := []; stops := []; static_obstacles := [] |})
    as (E1 & E2 & E3 & E4 & E5 & E6).
  cbn [vehicles traffic_lights speed_limits walkers stops static_obstacles
       app] in *.
  rewrite E1, E2, E3, E4, E5, E6. repeat split.
  clear. induction actors as [|a l IH]; simpl; [lia|].
  unfold goes_to_vehicles, goes_to_traffic_lights, goes_to_speed_limits,
    goes_to_walkers, goes_to_stops, goes_to_static_obstacles in *.
  destruct (tagged "vehicle"%string a), (tagged "traffic_light"%string a),
    (tagged "speed_limit"%string a), (tagged "walker"%string a), (tagged "stop"%string a),
    (tagged "static.prop"%string a); simpl; lia.
Qed.

(** ** The dictionaries *)

Definition put_all {V} (kvs : list (Z * V)) (d : Dict.t V) : Dict.t V :=
  fold_left (fun d kv => Dict.set (fst kv) (snd kv) d) kvs d.

(** The entries of a getter, before they are stored. *)
Fixpoint entries {R} (entry : WorldActor -> outcome R)
    (actors : list WorldActor) : outcome (list (Z * R)) :=
  match actors with
  | [] => Returns []
  | actor :: actors' =>
      e <- entry actor ;;
      es <- entries entry actors' ;;
      Returns ((wa_id actor, e) :: es)
  end.

Lemma get_put_all_other {V} (kvs : list (Z * V)) (k : Z) :
  ~ In k (map fst kvs) ->
  forall d, Dict.get k (put_all kvs d) = Dict.get k d.
Proof.
  unfold put_all.
  induction kvs as [|[k' v'] kvs IH]; intros Hk d; simpl; [reflexivity|].
  simpl in Hk. rewrite IH by tauto.
  apply get_set_other. intros ->. tauto.
Qed.

Lemma get_put_all_In {V} (kvs : list (Z * V)) (k : Z) (v : V) :
  forall d, Dict.get k (put_all kvs d) = Some v ->
            In (k, v) kvs \/ Dict.get k d = Some v.
Proof.
  unfold put_all.
  induction kvs as [|[k' v'] kvs IH]; intros d; simpl; [now right|].
  intros Hg. apply IH in Hg. destruct Hg as [Hin|Hg]; [left; now right|].
  destruct (Z.eq_dec k k') as [->|Hne].
  - rewrite get_set_same in Hg. injection Hg as ->. left. now left.
  - rewrite get_set_other in Hg by assumption. now right.
Qed.

(** The last entry stored under a key is the one that stays. *)
Lemma get_put_all_last {V} (before after : list (Z * V)) (k : Z) (v : V) :
  ~ In k (map fst after) ->
  forall d, Dict.get k (put_all (before ++ (k, v) :: after) d) = Some v.
Proof.
  intros Hk d. pose proof (get_put_all_other after k Hk) as E.
  unfold put_all in *. rewrite fold_left_app. simpl. rewrite E.
  apply get_set_same.
Qed.

Lemma keys_put_all {V} (kvs : list (Z * V)) :
  forall d, (forall k, In k (Dict.keys (put_all kvs d)) <->
                       In k (Dict.keys d) \/ In k (map fst kvs)).
Proof.
  unfold put_all.
  induction kvs as [|[k' v'] kvs IH]; intros d k; simpl; [tauto|].
  rewrite IH, keys_set.
  destruct (Dict.mem k' d) eqn:E.
  - unfold Dict.mem in E. destruct (Dict.get k' d) as [v|] eqn:Eg;
      [|discriminate].
    assert (In k' (Dict.keys d)).
    { apply get_In in Eg. change (In (fst (k', v)) (map fst d)).
      now apply in_map. }
    intuition (subst; auto).
  - rewrite in_app_iff. simpl. intuition.
Qed.

Lemma keys_put_all_NoDup {V} (kvs : list (Z * V)) :
  forall d, NoDup (Dict.keys d ++ map fst kvs) ->
            Dict.keys (put_all kvs d) = Dict.keys d ++ map fst kvs.
Proof.
  unfold put_all.
  induction kvs as [|[k' v'] kvs IH]; intros d Hnd; simpl.
  - now rewrite app_nil_r.
  - assert (Hk' : Dict.mem k' d = false).
    { unfold Dict.mem. destruct (Dict.get k' d) as [v|] eqn:Eg; [|reflexivity].
      exfalso. apply get_In in Eg. apply NoDup_remove_2 in Hnd. apply Hnd.
      apply in_or_app. left. change (In (fst (k', v)) (map fst d)).
      now apply in_map. }
    assert (Ek : Dict.keys (Dict.set k' v' d) = Dict.keys d ++ [k']).
    { now rewrite keys_set, Hk'. }
    rewrite IH; rewrite Ek, <- app_assoc; [reflexivity | exact Hnd].
Qed.

Lemma collect_entries {R} (entry : WorldActor -> outcome R)
    (actors : list WorldActor) :
  collect entry actors
  = (es <- entries entry actors ;; Returns (put_all es [])).
Proof.
  unfold collect. generalize (@nil (Z * R)) as d.
  induction actors as [|a l IH]; intros d; simpl; [reflexivity|].
  destruct (entry a) as [e|err]; simpl; [|reflexivity].
  rewrite IH. now destruct (entries entry l).
Qed.

Lemma entries_Returns {R} (entry : WorldActor -> outcome R)
    (actors : list WorldActor) (es : list (Z * R)) :
  entries entry actors = Returns es <->
  Forall2 (fun a ke => fst ke = wa_id a /\ entry a = Returns (snd ke))
          actors es.
Proof.
  revert es. induction actors as [|a l IH]; intros es; simpl.
  - split; [intros [= <-]; constructor | intros Hf; now inversion Hf].
  - destruct (entry a) as [e|err] eqn:Ee; simpl.
    + destruct (entries entry l) as [es'|err] eqn:El; simpl.
      * split.
        -- intros [= <-]. constructor; [now split | now apply IH].
        -- intros Hf. inversion Hf as [|? [k e'] ? es'' [Hk He] Hl]; subst.
           simpl in *. apply IH in Hl. congruence.
      * split; [discriminate|]. intros Hf.
        inversion Hf as [|? ke ? es'' _ Hl]; subst. apply IH in Hl.
        discriminate.
    + split; [discriminate|]. intros Hf.
      inversion Hf as [|? ke ? es'' [_ He] _]; subst. congruence.
Qed.

Lemma entries_returns_iff {R} (entry : WorldActor -> outcome R)
    (actors : list WorldActor) :
  (exists es, entries entry actors = Returns es) <->
  forall a, In a actors -> exists e, entry a = Returns e.
Proof.
  induction actors as [|a l IH]; simpl.
  - split; [intros _ a [] | intros _; now exists []].
  - split.
    + intros [es Hes] a' [<-|Hin].
      * destruct (entry a) as [e|]; [now exists e | discriminate].
      * apply IH; [|assumption]. destruct (entry a); [|discriminate].
        simpl in Hes. destruct (entries entry l) as [es'|]; [|discriminate].
        now exists es'.
    + intros Hall. destruct (Hall a) as [e Ee]; [now left|].
      destruct (proj2 IH) as [es Hes]; [intros a' Ha'; apply Hall; now right|].
      rewrite Ee, Hes. simpl. eauto.
Qed.

Lemma collect_returns_iff {R} (entry : WorldActor -> outcome R)
    (actors : list WorldActor) :
  (exists d, collect entry actors = Returns d) <->
  forall a, In a actors -> exists e, entry a = Returns e.
Proof.
  rewrite collect_entries, <- entries_returns_iff. split.
  - intros [d Hd]. destruct (entries entry actors) as [es|]; [|discriminate].
    now exists es.
  - intros [es Hes]. rewrite Hes. simpl. eauto.
Qed.

(** When every failure of [entry] is the exception [err], so is every
    failure of the getter. *)
Lemma collect_raises {R} (entry : WorldActor -> outcome R)
    (actors : list WorldActor) (err : Py.error) :
  (forall a err', In a actors -> entry a = Raises err' -> err' = err) ->
  (exists a, In a actors /\ entry a = Raises err) ->
  collect entry actors = Raises err.
Proof.
  rewrite collect_entries. intros Hsame [a [Hin Ha]].
  assert (E : entries entry actors = Raises err).
  { induction actors as [|a' l IH]; [destruct Hin|]. simpl.
    destruct (entry a') as [e|err'] eqn:Ee; simpl.
    - destruct Hin as [->|Hin']; [congruence|].
      rewrite IH; [reflexivity | | assumption].
      intros a0 err0 Ha0. apply Hsame. now right.
    - f_equal. apply (Hsame a'); [now left | assumption]. }
  now rewrite E.
Qed.

Lemma entries_keys {R} (entry : WorldActor -> outcome R)
    (actors : list WorldActor) (es : list (Z * R)) :
  entries entry actors = Returns es -> map fst es = map wa_id actors.
Proof.
  intros E. apply entries_Returns in E.
  induction E as [|a [k e] l es' [Hk _] _ IH]; simpl in *; congruence.
Qed.

Lemma entries_In {R} (entry : WorldActor -> outcome R)
    (actors : list WorldActor) (es : list (Z * R)) (k : Z) (e : R) :
  entries entry actors = Returns es -> In (k, e) es ->
  exists a, In a actors /\ wa_id a = k /\ entry a = Returns e.
Proof.
  intros E. apply entries_Returns in E.
  induction E as [|a [k' e'] l es' [Hk He] _ IH]; simpl in *; [tauto|].
  intros [[= -> ->]|Hin].
  - exists a. auto.
  - destruct (IH Hin) as (a' & Ha' & Hk' & He'). exists a'. auto.
Qed.

Lemma collect_keys {R} (entry : WorldActor -> outcome R)
    (actors : list WorldActor) (d : Dict.t R) :
  collect entry actors = Returns d ->
  (forall k, In k (Dict.keys d) <-> In k (map wa_id actors)) /\
  (NoDup (map wa_id actors) -> Dict.keys d = map wa_id actors).
Proof.
  rewrite collect_entries.
  destruct (entries entry actors) as [es|] eqn:E; [|discriminate].
  simpl. intros [= <-]. apply entries_keys in E. rewrite <- E. split.
  - intros k. rewrite keys_put_all. simpl. tauto.
  - intros Hnd. now rewrite keys_put_all_NoDup.
Qed.

Lemma collect_get {R} (entry : WorldActor -> outcome R)
    (actors : list WorldActor) (d : Dict.t R) (k : Z) (e : R) :
  collect entry actors = Returns d -> Dict.get k d = Some e ->
  exists a, In a actors /\ wa_id a = k /\ entry a = Returns e.
Proof.
  rewrite collect_entries.
  destruct (entries entry actors) as [es|] eqn:E; [|discriminate].
  simpl. intros [= <-] Hg. apply get_put_all_In in Hg.
  destruct Hg as [Hin|Hg]; [|discriminate]. now apply entries_In with es.
Qed.

Lemma entries_app {R} (entry : WorldActor -> outcome R)
    (l1 l2 : list WorldActor) :
  entries entry (l1 ++ l2)
  = (es1 <- entries entry l1 ;; es2 <- entries entry l2 ;;
     Returns (es1 ++ es2)).
Proof.
  induction l1 as [|a l1 IH]; simpl.
  - now destruct (entries entry l2).
  - destruct (entry a); simpl; [|reflexivity]. rewrite IH.
    destruct (entries entry l1); simpl; [|reflexivity].
    now destruct (entries entry l2).
Qed.

Lemma collect_last {R} (entry : WorldActor -> outcome R)
    (before after : list WorldActor) (a : WorldActor) (d : Dict.t R) :
  collect entry (before ++ a :: after) = Returns d ->
  ~ In (wa_id a) (map wa_id after) ->
  exists e, entry a = Returns e /\ Dict.get (wa_id a) d = Some e.
Proof.
  rewrite collect_entries, entries_app. simpl.
  destruct (entries entry before) as [es1|]; [|discriminate]. simpl.
  destruct (entry a) as [e|]; [|discriminate]. simpl.
  destruct (entries entry after) as [es2|] eqn:E2; [|discriminate]. simpl.
  intros [= <-] Hk. exists e. split; [reflexivity|].
  apply get_put_all_last. now rewrite (entries_keys _ _ _ E2).
Qed.

Lemma entries_Raises {R} (entry : WorldActor -> outcome R)
    (actors : list WorldActor) (err : Py.error) :
  entries entry actors = Raises err ->
  exists a, In a actors /\ entry a = Raises err.
Proof.
  induction actors as [|a l IH]; simpl; [discriminate|].
  destruct (entry a) as [e|e0] eqn:Ee; simpl.
  - destruct (entries entry l) as [es|e1] eqn:El; simpl; [discriminate|].
    intros [= ->]. destruct IH as (a' & Ha' & He'); [reflexivity|].
    exists a'. split; [now right | assumption].
  - intros [= ->]. exists a. split; [now left | assumption].
Qed.

(** A getter fails with the exception of one of its actors. *)
Lemma collect_Raises {R} (entry : WorldActor -> outcome R)
    (actors : list WorldActor) (err : Py.error) :
  collect entry actors = Raises err ->
  exists a, In a actors /\ entry a = Raises err.
Proof.
  rewrite collect_entries.
  destruct (entries entry actors) as [es|e0] eqn:E; simpl; [discriminate|].
  intros [= ->]. now apply entries_Raises.
Qed.

(** ** The hero *)

Definition is_hero (v : WorldActor) : bool :=
  match attribute "role_name"%string (attributes v) with
  | Some role => String.eqb role "hero"%string
  | None => false
  end.

(** The vehicle [random.choice] draws with [r] among the heroes. *)
Definition drawn_hero (r : nat) (vehicles : list WorldActor)
    : option WorldActor :=
  let heroes := filter is_hero vehicles in
  nth_error heroes (r mod length heroes).

Lemma hero_vehicles_of_returns (vs : list WorldActor) :
  (forall v, In v vs -> tagged "vehicle"%string v = true) ->
  (forall v, In v vs ->
             attribute "role_name"%string (attributes v) <> None) ->
  hero_vehicles_of vs = Returns (filter is_hero vs).
Proof.
  induction vs as [|v vs IH]; intros Htag Hrole; simpl; [reflexivity|].
  assert (Hv : tagged "vehicle"%string v = true) by (apply Htag; now left).
  unfold tagged in Hv. rewrite Hv. unfold is_hero.
  destruct (attribute "role_name"%string (attributes v)) as [role|] eqn:Er.
  - simpl. rewrite IH; [reflexivity | |]; intros v' Hv'.
    + apply Htag. now right.
    + apply Hrole. now right.
  - exfalso. apply (Hrole v); [now left | assumption].
Qed.

Lemma hero_vehicles_of_raises (vs : list WorldActor) :
  (forall v, In v vs -> tagged "vehicle"%string v = true) ->
  (exists v, In v vs /\ attribute "role_name"%string (attributes v) = None) ->
  hero_vehicles_of vs = Raises Py.KeyError.
Proof.
  induction vs as [|v vs IH]; intros Htag (v0 & Hin & Hnone);
    [destruct Hin|]. simpl.
  assert (Hv : tagged "vehicle"%string v = true) by (apply Htag; now left).
  unfold tagged in Hv. rewrite Hv.
  destruct (attribute "role_name"%string (attributes v)) as [role|] eqn:Er;
    [|reflexivity].
  simpl. rewrite IH; [reflexivity | |].
  - intros v' Hv'. apply Htag. now right.
  - destruct Hin as [->|Hin]; [congruence|]. now exists v0.
Qed.

Lemma draw_returns (r : nat) (heroes : list WorldActor) :
  (if (length heroes =? 0)%nat then Returns None
   else h <- choice r heroes ;; Returns (Some h))
  = Returns (nth_error heroes (r mod length heroes)).
Proof.
  destruct heroes as [|h hs]; [now destruct r|].
  set (l := h :: hs).
  assert (Hl : (length l =? 0)%nat = false) by reflexivity.
  rewrite Hl. unfold choice.
  destruct (nth_error l (r mod length l)) as [a|] eqn:E; [reflexivity|].
  apply nth_error_None in E.
  pose proof (Nat.mod_upper_bound r (length l)) as Hb.
  subst l. simpl in *. lia.
Qed.

(** ** The snapshot *)

Lemma split_fields (actors : list WorldActor) :
  vehicles (_split_actors actors) = filter goes_to_vehicles actors /\
  traffic_lights (_split_actors actors)
  = filter goes_to_traffic_lights actors /\
  speed_limits (_split_actors actors) = filter goes_to_speed_limits actors /\
  walkers (_split_actors actors) = filter goes_to_walkers actors /\
  stops (_split_actors actors) = filter goes_to_stops actors /\
  static_obstacles (_split_actors actors)
  = filter goes_to_static_obstacles actors.
Proof.
  exact (fold_split_actor actors
           {| vehicles := []; traffic_lights := []; speed_limits := [];
              walkers := []; stops := []; static_obstacles := [] |}).
Qed.

Lemma vehicles_tagged (actors : list WorldActor) (v : WorldActor) :
  In v (vehicles (_split_actors actors)) <->
  In v actors /\ tagged "vehicle"%string v = true.
Proof.
  destruct (split_fields actors) as (E & _). rewrite E. apply filter_In.
Qed.

Lemma hero_vehicles_of_inv (vs hs : list WorldActor) :
  (forall v, In v vs -> tagged "vehicle"%string v = true) ->
  hero_vehicles_of vs = Returns hs ->
  (forall v, In v vs ->
             attribute "role_name"%string (attributes v) <> None) /\
  hs = filter is_hero vs.
Proof.
  revert hs. induction vs as [|v vs IH]; intros hs Htag; simpl.
  - intros [= <-]. split; [intros v [] | reflexivity].
  - assert (Hv : tagged "vehicle"%string v = true) by (apply Htag; now left).
    unfold tagged in Hv. rewrite Hv. unfold is_hero.
    destruct (attribute "role_name"%string (attributes v)) as [role|] eqn:Er;
      [|discriminate].
    simpl. destruct (hero_vehicles_of vs) as [hs'|] eqn:Ehs; [|discriminate].
    simpl. intros [= <-].
    destruct (IH hs') as [Hrole ->];
      [intros v' Hv'; apply Htag; now right | reflexivity |].
    split; [|reflexivity]. intros v' [<-|Hv']; [congruence | now apply Hrole].
Qed.

(** What the snapshot is made of, when there is one. *)
Lemma get_dynamic_objects_parts (r : nat) (actors : list WorldActor)
    (carla_map : RoadMap) (snap : Snapshot) :
  get_dynamic_objects r actors carla_map = Returns snap ->
  (forall v, In v (vehicles (_split_actors actors)) ->
     attribute "role_name"%string (attributes v) <> None) /\
  get_vehicles carla_map (vehicles (_split_actors actors))
  = Returns (snap_vehicles snap) /\
  get_hero_vehicle carla_map
    (drawn_hero r (vehicles (_split_actors actors)))
  = Returns (snap_hero_vehicle snap) /\
  get_walkers carla_map (walkers (_split_actors actors))
  = Returns (snap_walkers snap) /\
  get_traffic_lights carla_map (traffic_lights (_split_actors actors))
  = Returns (snap_traffic_lights snap) /\
  get_stop_signals carla_map (stops (_split_actors actors))
  = Returns (snap_stop_signs snap) /\
  get_speed_limits carla_map (speed_limits (_split_actors actors))
  = Returns (snap_speed_limits snap) /\
  get_static_obstacles carla_map (static_obstacles (_split_actors actors))
  = Returns (snap_static_obstacles snap).
Proof.
  unfold get_dynamic_objects. cbv zeta.
  destruct (hero_vehicles_of (vehicles (_split_actors actors)))
    as [hs|] eqn:Eh; [|discriminate].
  apply hero_vehicles_of_inv in Eh;
    [|intros v Hv; now apply vehicles_tagged in Hv].
  destruct Eh as [Hrole ->]. cbn [and_then]. rewrite draw_returns.
  cbn [and_then]. fold (drawn_hero r (vehicles (_split_actors actors))).
  destruct (get_vehicles carla_map _) as [v|]; [|discriminate].
  cbn [and_then]. destruct (get_hero_vehicle carla_map _) as [hv|];
    [|discriminate].
  cbn [and_then]. destruct (get_walkers carla_map _) as [w|]; [|discriminate].
  cbn [and_then]. destruct (get_traffic_lights carla_map _) as [tl|];
    [|discriminate].
  cbn [and_then]. destruct (get_stop_signals carla_map _) as [st|];
    [|discriminate].
  cbn [and_then]. destruct (get_speed_limits carla_map _) as [sl|];
    [|discriminate].
  cbn [and_then]. destruct (get_static_obstacles carla_map _) as [so|];
    [|discriminate].
  cbn [and_then]. intros [= <-]. repeat split; auto.
Qed.

Lemma body_entry_returns (carla_map : RoadMap) (a : WorldActor) :
  (exists e, body_entry carla_map a = Returns e) <-> bounding_box a <> None.
Proof.
  unfold body_entry, _get_bounding_box, read.
  destruct (bounding_box a); simpl; split; try congruence; eauto.
  intros [e He]. discriminate.
Qed.

Lemma body_entry_raises (carla_map : RoadMap) (a : WorldActor)
    (err : Py.error) :
  body_entry carla_map a = Raises err -> err = Py.AttributeError.
Proof.
  unfold body_entry, _get_bounding_box, read.
  destruct (bounding_box a); simpl; congruence.
Qed.

Lemma get_hero_vehicle_raises (carla_map : RoadMap) (h : option WorldActor)
    (err : Py.error) :
  get_hero_vehicle carla_map h = Raises err -> err = Py.AttributeError.
Proof.
  destruct h as [h|]; simpl; [|discriminate]. unfold read.
  destruct (get_waypoint carla_map (get_location h)); simpl; congruence.
Qed.

Lemma getter_raises_attribute_error {R} (entry : WorldActor -> outcome R)
    (actors : list WorldActor) (err : Py.error) :
  (forall a err', entry a = Raises err' -> err' = Py.AttributeError) ->
  collect entry actors = Raises err -> err = Py.AttributeError.
Proof.
  intros Hentry E. apply collect_Raises in E. destruct E as (a & _ & Ea).
  now apply (Hentry a).
Qed.

Lemma traffic_light_entry_raises (carla_map : RoadMap) (a : WorldActor)
    (err : Py.error) :
  (st <- read (state a) ;;
   volume <- trigger_volume_of carla_map a ;;
   Returns {| tl_id := wa_id a; tl_state := st;
              tl_position := gnss carla_map (location (wa_transform a));
              tl_trigger_volume := corner_list volume |}) = Raises err ->
  err = Py.AttributeError.
Proof.
  unfold trigger_volume_of, read.
  destruct (state a), (wa_trigger_volume a); simpl; congruence.
Qed.

(** X8: every vehicle must carry the attribute ['role_name']: one vehicle
    without it makes [get_dynamic_objects] raise [KeyError], whatever else
    the world holds and whether or not any vehicle is a hero. *)
Theorem vehicle_without_role_name_raises (r : nat)
    (actors : list WorldActor) (carla_map : RoadMap) (v : WorldActor) :
  In v actors ->
  contains "vehicle"%string (type_id v) = true ->
  attribute "role_name"%string (attributes v) = None ->
  get_dynamic_objects r actors carla_map = Raises Py.KeyError.
Proof.
  intros Hin Htag Hrole. unfold get_dynamic_objects. cbv zeta.
  rewrite hero_vehicles_of_raises; [reflexivity | |].
  - intros v' Hv'. now apply vehicles_tagged in Hv'.
  - exists v. split; [|assumption]. now apply vehicles_tagged.
Qed.

(** X9: an actor whose [type_id] contains ['stop'] and none of the four
    tags tested before it is listed with the stop signs and never with
    the static obstacles, also when its [type_id] contains ['static.prop'].
    When it has no trigger volume, and the vehicles carry their
    ['role_name'], [get_dynamic_objects] raises [AttributeError]. *)
Theorem stop_in_the_name_makes_a_stop_sign (r : nat)
    (actors : list WorldActor) (carla_map : RoadMap) (a : WorldActor) :
  In a actors ->
  contains "vehicle"%string (type_id a) = false ->
  contains "traffic_light"%string (type_id a) = false ->
  contains "speed_limit"%string (type_id a) = false ->
  contains "walker"%string (type_id a) = false ->
  contains "stop"%string (type_id a) = true ->
  In a (stops (_split_actors actors)) /\
  ~ In a (static_obstacles (_split_actors actors)) /\
  (wa_trigger_volume a = None ->
   (forall v, In v actors -> contains "vehicle"%string (type_id v) = true ->
              attribute "role_name"%string (attributes v) <> None) ->
   get_dynamic_objects r actors carla_map = Raises Py.AttributeError).
Proof.
  intros Hin Hv Htl Hsl Hw Hst.
  destruct (split_fields actors) as (_ & _ & _ & _ & Estops & Estatic).
  assert (Hstop : In a (stops (_split_actors actors))).
  { rewrite Estops. apply filter_In. split; [assumption|].
    unfold goes_to_stops, tagged. now rewrite Hv, Htl, Hsl, Hw, Hst. }
  split; [assumption|]. split.
  { rewrite Estatic. intros Hf. apply filter_In in Hf. destruct Hf as [_ Hf].
    unfold goes_to_static_obstacles, tagged in Hf.
    rewrite Hv, Htl, Hsl, Hw, Hst in Hf. discriminate. }
  intros Hnone Hroles. unfold get_dynamic_objects. cbv zeta.
  rewrite hero_vehicles_of_returns.
  2:{ intros v' Hv'. now apply vehicles_tagged in Hv'. }
  2:{ intros v' Hv'. apply vehicles_tagged in Hv'. now apply Hroles. }
  cbn [and_then]. rewrite draw_returns. cbn [and_then].
  destruct (get_vehicles carla_map _) as [v|e] eqn:E1; cbn [and_then].
  2:{ f_equal. revert E1. apply getter_raises_attribute_error.
      apply body_entry_raises. }
  destruct (get_hero_vehicle carla_map _) as [hv|e] eqn:E2; cbn [and_then].
  2:{ f_equal. now apply get_hero_vehicle_raises in E2. }
  destruct (get_walkers carla_map _) as [w|e] eqn:E3; cbn [and_then].
  2:{ f_equal. revert E3. apply getter_raises_attribute_error.
      apply body_entry_raises. }
  destruct (get_traffic_lights carla_map _) as [tl|e] eqn:E4; cbn [and_then].
  2:{ f_equal. revert E4. apply getter_raises_attribute_error.
      intros a0 err'. apply traffic_light_entry_raises. }
  assert (E5 : get_stop_signals carla_map (stops (_split_actors actors))
               = Raises Py.AttributeError).
  { apply collect_raises.
    - intros a0 err' _. unfold trigger_volume_of, read.
      destruct (wa_trigger_volume a0); simpl; congruence.
    - exists a. split; [assumption|]. unfold trigger_volume_of, read.
      now rewrite Hnone. }
  now rewrite E5.
Qed.

(** What a world must offer for the snapshot to be taken. *)
Definition snapshot_ready (r : nat) (actors : list WorldActor)
    (carla_map : RoadMap) : Prop :=
  let s := _split_actors actors in
  (forall v, In v (vehicles s) ->
     attribute "role_name"%string (attributes v) <> None /\
     bounding_box v <> None) /\
  (forall h, drawn_hero r (vehicles s) = Some h ->
     get_waypoint carla_map (get_location h) <> None) /\
  (forall w, In w (walkers s) -> bounding_box w <> None) /\
  (forall t, In t (traffic_lights s) ->
     state t <> None /\ wa_trigger_volume t <> None) /\
  (forall t, In t (stops s) -> wa_trigger_volume t <> None) /\
  (forall l, In l (speed_limits s) ->
     exists word n, nth_error (split_on "."%char (type_id l)) 2 = Some word /\
                    int_of_str word = Some n).

(** X10: [get_dynamic_objects] returns a snapshot exactly when every
    vehicle has a ['role_name'] and a bounding box, the drawn hero (if
    any) has a waypoint, every walker has a bounding box, every traffic
    light a state and a trigger volume, every stop sign a trigger volume,
    and the third dot-separated word of every speed limit's [type_id]
    exists and is accepted by [int]. Otherwise it raises. *)
Theorem snapshot_taken_iff_ready (r : nat) (actors : list WorldActor)
    (carla_map : RoadMap) :
  (exists snap, get_dynamic_objects r actors carla_map = Returns snap) <->
  snapshot_ready r actors carla_map.
Proof.
  unfold snapshot_ready. cbv zeta. split.
  - intros [snap Hs]. apply get_dynamic_objects_parts in Hs.
    destruct Hs as (Hrole & Ev & Eh & Ew & Etl & Est & Esl & _).
    repeat split.
    + now apply Hrole.
    + eapply body_entry_returns, (proj1 (collect_returns_iff _ _));
        [eexists; exact Ev | assumption].
    + intros h Hh. rewrite Hh in Eh. simpl in Eh. unfold read in Eh.
      destruct (get_waypoint carla_map (get_location h));
        [discriminate | discriminate Eh].
    + intros w Hw. eapply body_entry_returns, (proj1 (collect_returns_iff _ _));
        [eexists; exact Ew | assumption].
    + destruct (proj1 (collect_returns_iff _ _) (ex_intro _ _ Etl) t H2)
        as [e He].
      unfold read in He. destruct (state t); [discriminate | discriminate He].
    + destruct (proj1 (collect_returns_iff _ _) (ex_intro _ _ Etl) t H2)
        as [e He].
      unfold trigger_volume_of, read in He.
      destruct (state t), (wa_trigger_volume t); simpl in He;
        try discriminate; discriminate He.
    + intros t Ht.
      destruct (proj1 (collect_returns_iff _ _) (ex_intro _ _ Est) t Ht)
        as [e He].
      unfold trigger_volume_of, read in He.
      destruct (wa_trigger_volume t); [discriminate | discriminate He].
    + intros l Hl.
      destruct (proj1 (collect_returns_iff _ _) (ex_intro _ _ Esl) l Hl)
        as [e He].
      unfold speed_of in He.
      destruct (nth_error (split_on "."%char (type_id l)) 2) as [word|];
        [|discriminate He].
      destruct (int_of_str word) as [n|] eqn:En; [|discriminate He].
      now exists word, n.
  - intros (Hv & Hh & Hw & Htl & Hst & Hsl).
    unfold get_dynamic_objects. cbv zeta.
    rewrite hero_vehicles_of_returns.
    2:{ intros v' Hv'. now apply vehicles_tagged in Hv'. }
    2:{ intros v' Hv'. now apply Hv. }
    cbn [and_then]. rewrite draw_returns. cbn [and_then].
    fold (drawn_hero r (vehicles (_split_actors actors))).
    destruct (proj2 (collect_returns_iff (body_entry carla_map)
                       (vehicles (_split_actors actors)))) as [v Ev].
    { intros a Ha. apply body_entry_returns. now apply Hv. }
    unfold get_vehicles. rewrite Ev. cbn [and_then].
    assert (Ehv : exists hv,
               get_hero_vehicle carla_map
                 (drawn_hero r (vehicles (_split_actors actors)))
               = Returns hv).
    { destruct (drawn_hero r (vehicles (_split_actors actors))) as [h|] eqn:Ed;
        simpl; [|eauto].
      specialize (Hh h eq_refl). unfold read.
      destruct (get_waypoint carla_map (get_location h)); [|congruence].
      simpl. eauto. }
    destruct Ehv as [hv Ehv]. rewrite Ehv. cbn [and_then].
    destruct (proj2 (collect_returns_iff (body_entry carla_map)
                       (walkers (_split_actors actors)))) as [w Ew].
    { intros a Ha. apply body_entry_returns. now apply Hw. }
    unfold get_walkers. rewrite Ew. cbn [and_then].
    unfold get_traffic_lights, get_stop_signals, get_speed_limits,
      get_static_obstacles.
    match goal with |- context [collect ?f (traffic_lights _)] =>
      destruct (proj2 (collect_returns_iff f
                         (traffic_lights (_split_actors actors))))
        as [tl Etl] end.
    { intros a Ha. destruct (Htl a Ha) as [Hs Ht].
      unfold trigger_volume_of, read.
      destruct (state a), (wa_trigger_volume a); simpl; try congruence.
      eauto. }
    rewrite Etl. cbn [and_then].
    match goal with |- context [collect ?f (stops _)] =>
      destruct (proj2 (collect_returns_iff f (stops (_split_actors actors))))
        as [st Est] end.
    { intros a Ha. specialize (Hst a Ha). unfold trigger_volume_of, read.
      destruct (wa_trigger_volume a); simpl; [eauto | congruence]. }
    rewrite Est. cbn [and_then].
    match goal with |- context [collect ?f (speed_limits _)] =>
      destruct (proj2 (collect_returns_iff f
                         (speed_limits (_split_actors actors))))
        as [sl Esl] end.
    { intros a Ha. destruct (Hsl a Ha) as (word & n & Ew' & En).
      unfold speed_of. rewrite Ew', En. simpl. eauto. }
    rewrite Esl. cbn [and_then].
    match goal with |- context [collect ?f (static_obstacles _)] =>
      destruct (proj2 (collect_returns_iff f
                         (static_obstacles (_split_actors actors))))
        as [so Eso] end.
    { intros a Ha. eauto. }
    rewrite Eso. cbn [and_then]. eauto.
Qed.

Lemma NoDup_ids_filter (p : WorldActor -> bool) (actors : list WorldActor) :
  NoDup (map wa_id actors) -> NoDup (map wa_id (filter p actors)).
Proof.
  induction actors as [|a l IH]; simpl; [auto|]. intros Hnd.
  inversion Hnd as [|? ? Ha Hl]; subst. destruct (p a); simpl; [|auto].
  constructor; [|auto]. intros Hin. apply Ha. apply in_map_iff in Hin.
  destruct Hin as (a' & Ea & Hin). apply filter_In in Hin.
  apply in_map_iff. exists a'. tauto.
Qed.

(** The keys of [d] are the ids of the actors [l], in their order when
    the ids of the world are distinct. *)
Definition keyed_by_ids {R} (actors : list WorldActor) (d : Dict.t R)
    (l : list WorldActor) : Prop :=
  (forall k, In k (Dict.keys d) <-> In k (map wa_id l)) /\
  (NoDup (map wa_id actors) -> Dict.keys d = map wa_id l).

Lemma collect_keyed_by_ids {R} (entry : WorldActor -> outcome R)
    (p : WorldActor -> bool) (actors : list WorldActor) (d : Dict.t R) :
  collect entry (filter p actors) = Returns d ->
  keyed_by_ids actors d (filter p actors).
Proof.
  intros E. apply collect_keys in E. destruct E as [Hk Hnd].
  split; [assumption|]. intros Hids. now apply Hnd, NoDup_ids_filter.
Qed.

(** X11: in a snapshot each of the six dictionaries has as keys exactly
    the ids of the actors of its list; when the ids of the world are
    distinct the keys come in the order of the actors, one per actor. *)
Theorem snapshot_keys_are_actor_ids (r : nat) (actors : list WorldActor)
    (carla_map : RoadMap) (snap : Snapshot) :
  get_dynamic_objects r actors carla_map = Returns snap ->
  let s := _split_actors actors in
  keyed_by_ids actors (snap_vehicles snap) (vehicles s) /\
  keyed_by_ids actors (snap_walkers snap) (walkers s) /\
  keyed_by_ids actors (snap_traffic_lights snap) (traffic_lights s) /\
  keyed_by_ids actors (snap_stop_signs snap) (stops s) /\
  keyed_by_ids actors (snap_speed_limits snap) (speed_limits s) /\
  keyed_by_ids actors (snap_static_obstacles snap) (static_obstacles s).
Proof.
  intros Hs. cbv zeta. apply get_dynamic_objects_parts in Hs.
  destruct Hs as (_ & Ev & _ & Ew & Etl & Est & Esl & Eso).
  destruct (split_fields actors) as (F1 & F2 & F3 & F4 & F5 & F6).
  rewrite F1 in Ev |- *. rewrite F2 in Etl |- *. rewrite F3 in Esl |- *.
  rewrite F4 in Ew |- *. rewrite F5 in Est |- *. rewrite F6 in Eso |- *.
  repeat split; eapply collect_keyed_by_ids; eassumption.
Qed.

(** X12: the entry of a vehicle or a walker under key [k] is made from an
    actor of the world with id [k]: its position is [latitude, longitude,
    altitude] of the actor's location, its orientation [roll, pitch, yaw],
    and its bounding box the four corners (-x,-y), (x,-y), (x,y), (-x,y) of
    the extent, moved by the actor's transform only, each as [longitude,
    latitude, altitude]. Of two vehicles with one id, the later is kept. *)
Theorem body_entries_come_from_actors (r : nat) (actors : list WorldActor)
    (carla_map : RoadMap) (snap : Snapshot) :
  get_dynamic_objects r actors carla_map = Returns snap ->
  (forall k e,
     Dict.get k (snap_vehicles snap) = Some e \/
     Dict.get k (snap_walkers snap) = Some e ->
     exists a box,
       In a actors /\ wa_id a = k /\ bounding_box a = Some box /\
       let geo := transform_to_geolocation (road_map carla_map) in
       let corner := fun cx cy =>
         let g := geo (transform_point (wa_transform a) (Location_xy cx cy)) in
         [longitude g; latitude g; altitude g] in
       let ex := x (extent box) in
       let ey := y (extent box) in
       body_id e = k /\
       body_position e
       = [latitude (geo (location (wa_transform a)));
          longitude (geo (location (wa_transform a)));
          altitude (geo (location (wa_transform a)))] /\
       body_orientation e
       = [roll (rotation (wa_transform a)); pitch (rotation (wa_transform a));
          yaw (rotation (wa_transform a))] /\
       body_bounding_box e
       = [corner (fneg ex) (fneg ey); corner ex (fneg ey); corner ex ey;
          corner (fneg ex) ey]) /\
  (forall before a after,
     vehicles (_split_actors actors) = before ++ a :: after ->
     ~ In (wa_id a) (map wa_id after) ->
     exists e, body_entry carla_map a = Returns e /\
               Dict.get (wa_id a) (snap_vehicles snap) = Some e).
Proof.
  intros Hs. apply get_dynamic_objects_parts in Hs.
  destruct Hs as (_ & Ev & _ & Ew & _). split.
  - intros k e Hk.
    assert (Ha : exists a, In a actors /\ wa_id a = k /\
                           body_entry carla_map a = Returns e).
    { destruct (split_fields actors) as (F1 & _ & _ & F4 & _).
      destruct Hk as [Hk|Hk].
      - destruct (collect_get _ _ _ _ _ Ev Hk) as (a & Hin & Hid & He).
        rewrite F1 in Hin. apply filter_In in Hin. exists a. tauto.
      - destruct (collect_get _ _ _ _ _ Ew Hk) as (a & Hin & Hid & He).
        rewrite F4 in Hin. apply filter_In in Hin. exists a. tauto. }
    destruct Ha as (a & Hin & Hid & He).
    unfold body_entry, _get_bounding_box, read in He.
    destruct (bounding_box a) as [box|] eqn:Eb; [|discriminate].
    simpl in He. injection He as <-. exists a, box. cbv zeta.
    repeat split; auto.
  - intros before a after Esplit Hlast. unfold get_vehicles in Ev.
    rewrite Esplit in Ev. exact (collect_last _ _ _ _ _ Ev Hlast).
Qed.

(** X13: the snapshot has no hero exactly when no vehicle has the
    ['role_name'] ['hero']; otherwise its hero is one vehicle with that
    role, with the road and lane of the waypoint the map finds at the
    vehicle's location. *)
Theorem hero_is_a_vehicle_with_the_role (r : nat) (actors : list WorldActor)
    (carla_map : RoadMap) (snap : Snapshot) :
  get_dynamic_objects r actors carla_map = Returns snap ->
  (snap_hero_vehicle snap = None <->
   forall v, In v actors -> contains "vehicle"%string (type_id v) = true ->
             attribute "role_name"%string (attributes v)
             <> Some "hero"%string) /\
  (forall hero,
     snap_hero_vehicle snap = Some hero ->
     exists v waypoint,
       In v actors /\ contains "vehicle"%string (type_id v) = true /\
       attribute "role_name"%string (attributes v) = Some "hero"%string /\
       get_waypoint carla_map (get_location v) = Some waypoint /\
       hero_id hero = wa_id v /\
       hero_position hero = gnss carla_map (location (wa_transform v)) /\
       hero_road_id hero = wp_road_id waypoint /\
       hero_lane_id hero = wp_lane_id waypoint).
Proof.
  intros Hs. apply get_dynamic_objects_parts in Hs.
  destruct Hs as (_ & _ & Eh & _).
  set (vs := vehicles (_split_actors actors)) in *.
  assert (Hhero : forall v, is_hero v = true <->
            attribute "role_name"%string (attributes v)
            = Some "hero"%string).
  { intros v. unfold is_hero.
    destruct (attribute "role_name"%string (attributes v)) as [role|];
      [|split; discriminate].
    rewrite String.eqb_eq. split; congruence. }
  assert (Hdrawn : forall h, drawn_hero r vs = Some h ->
            In h actors /\ contains "vehicle"%string (type_id h) = true /\
            attribute "role_name"%string (attributes h)
            = Some "hero"%string).
  { intros h Hd. unfold drawn_hero in Hd. apply nth_error_In in Hd.
    apply filter_In in Hd. destruct Hd as [Hin Hh]. subst vs.
    apply vehicles_tagged in Hin. apply Hhero in Hh. tauto. }
  split.
  - split.
    + intros Hnone v Hin Htag Hrole.
      assert (Hv : In v (filter is_hero vs)).
      { apply filter_In. split; [now apply vehicles_tagged | now apply Hhero]. }
      destruct (drawn_hero r vs) as [h|] eqn:Ed.
      * simpl in Eh. unfold read in Eh.
        destruct (get_waypoint carla_map (get_location h)); simpl in Eh;
          congruence.
      * unfold drawn_hero in Ed. apply nth_error_None in Ed.
        destruct (filter is_hero vs) as [|h hs]; [destruct Hv|].
        pose proof (Nat.mod_upper_bound r (length (h :: hs))) as Hb.
        simpl in *. lia.
    + intros Hno. destruct (drawn_hero r vs) as [h|] eqn:Ed.
      * destruct (Hdrawn h eq_refl) as (Hin & Htag & Hrole).
        now destruct (Hno h Hin Htag).
      * simpl in Eh. congruence.
  - intros hero Hsome. destruct (drawn_hero r vs) as [h|] eqn:Ed.
    + destruct (Hdrawn h eq_refl) as (Hin & Htag & Hrole).
      simpl in Eh. unfold read in Eh.
      destruct (get_waypoint carla_map (get_location h)) as [wp|] eqn:Ewp;
        simpl in Eh; [|discriminate].
      exists h, wp. injection Eh as Eh. rewrite Hsome in Eh.
      injection Eh as <-. simpl. repeat split; auto.
    + simpl in Eh. congruence.
Qed.

Lemma count_char_append (c : Ascii.ascii) (a b : String.string) :
  count_char c (String.append a b) = (count_char c a + count_char c b)%nat.
Proof. induction a as [|c' a IH]; simpl; [reflexivity | rewrite IH; lia]. Qed.

(** X14: the speed of a speed limit is [int] of the third dot-separated
    word of its [type_id]: of [c] in [a.b.c] and in [a.b.c.d]. Reading it
    raises [IndexError] exactly when the [type_id] has fewer than two
    dots, and [ValueError] when [int] rejects the word. In a snapshot the
    entry of a speed limit carries the speed read from an actor with the
    entry's id. *)
Theorem speed_is_the_third_word :
  (forall a b c d : String.string,
     let dot := String.String "."%char String.EmptyString in
     let read_c := match int_of_str c with
                   | Some n => Returns n
                   | None => Raises Py.ValueError
                   end in
     count_char "."%char a = 0%nat -> count_char "."%char b = 0%nat ->
     count_char "."%char c = 0%nat ->
     speed_of (String.append a (String.append dot (String.append b
                 (String.append dot c)))) = read_c /\
     speed_of (String.append a (String.append dot (String.append b
                 (String.append dot (String.append c
                    (String.append dot d)))))) = read_c) /\
  (forall s, speed_of s = Raises Py.IndexError <->
             (count_char "."%char s < 2)%nat) /\
  (forall r actors carla_map snap k e,
     get_dynamic_objects r actors carla_map = Returns snap ->
     Dict.get k (snap_speed_limits snap) = Some e ->
     exists l, In l actors /\ wa_id l = k /\ sl_id e = k /\
               speed_of (type_id l) = Returns (sl_speed e)).
Proof.
  split; [|split].
  - intros a b c d dot read_c Ha Hb Hc. subst dot read_c.
    simpl String.append. unfold speed_of. split.
    + rewrite !split_on_append by assumption.
      now rewrite (split_on_plain _ c Hc).
    + rewrite !split_on_append by assumption.
      destruct (split_on "."%char d); reflexivity.
  - intros s. unfold speed_of.
    destruct (nth_error (split_on "."%char s) 2) as [word|] eqn:E.
    + assert (Hn : nth_error (split_on "."%char s) 2 <> None) by congruence.
      apply nth_error_Some in Hn. rewrite split_on_length in Hn.
      split; [destruct (int_of_str word); discriminate | lia].
    + apply nth_error_None in E. rewrite split_on_length in E.
      split; [lia | reflexivity].
  - intros r actors carla_map snap k e Hsnap Hget.
    apply get_dynamic_objects_parts in Hsnap.
    destruct Hsnap as (_ & _ & _ & _ & _ & _ & Esl & _).
    destruct (collect_get _ _ _ _ _ Esl Hget) as (l & Hin & Hid & He).
    destruct (split_fields actors) as (_ & _ & F3 & _).
    rewrite F3 in Hin. apply filter_In in Hin.
    destruct (speed_of (type_id l)) as [n|] eqn:En; [|discriminate].
    simpl in He. injection He as <-. exists l. simpl. tauto.
Qed.

(** X15: the entry of a stop sign or a traffic light under key [k] is made
    from an actor of the world with id [k] that has a trigger volume: its
    position is [latitude, longitude, altitude] of the actor's location
    and its trigger volume the five corners [_get_trigger_volume] gives
    for the actor, each as [longitude, latitude, altitude]; a traffic
    light also carries the actor's state. The entry of a static obstacle
    has the id and the position alone. *)
Theorem sign_entries_come_from_actors (r : nat) (actors : list WorldActor)
    (carla_map : RoadMap) (snap : Snapshot) :
  get_dynamic_objects r actors carla_map = Returns snap ->
  let sign := fun (a : WorldActor) volume =>
    {| actor_id := wa_id a; trigger_volume := volume;
       get_transform := wa_transform a |} in
  (forall k e,
     Dict.get k (snap_stop_signs snap) = Some e ->
     exists a volume,
       In a actors /\ wa_id a = k /\ wa_trigger_volume a = Some volume /\
       stop_id e = k /\
       stop_position e = gnss carla_map (location (wa_transform a)) /\
       stop_trigger_volume e
       = trigger_volume_field (road_map carla_map) (sign a volume) /\
       length (stop_trigger_volume e) = 5%nat) /\
  (forall k e,
     Dict.get k (snap_traffic_lights snap) = Some e ->
     exists a volume,
       In a actors /\ wa_id a = k /\ wa_trigger_volume a = Some volume /\
       state a = Some (tl_state e) /\ tl_id e = k /\
       tl_position e = gnss carla_map (location (wa_transform a)) /\
       tl_trigger_volume e
       = trigger_volume_field (road_map carla_map) (sign a volume) /\
       length (tl_trigger_volume e) = 5%nat) /\
  (forall k e,
     Dict.get k (snap_static_obstacles snap) = Some e ->
     exists a,
       In a actors /\ wa_id a = k /\ static_id e = k /\
       static_position e = gnss carla_map (location (wa_transform a))).
Proof.
  intros Hs sign. apply get_dynamic_objects_parts in Hs.
  destruct Hs as (_ & _ & _ & _ & Etl & Est & _ & Eso).
  destruct (split_fields actors) as (_ & F2 & _ & _ & F5 & F6).
  split; [|split].
  - intros k e Hk.
    destruct (collect_get _ _ _ _ _ Est Hk) as (a & Hin & Hid & He).
    rewrite F5 in Hin. apply filter_In in Hin.
    unfold trigger_volume_of, read in He.
    destruct (wa_trigger_volume a) as [volume|] eqn:Ev; [|discriminate].
    simpl in He. injection He as <-. exists a, volume. simpl.
    repeat split; try reflexivity; tauto.
  - intros k e Hk.
    destruct (collect_get _ _ _ _ _ Etl Hk) as (a & Hin & Hid & He).
    rewrite F2 in Hin. apply filter_In in Hin.
    unfold trigger_volume_of, read in He.
    destruct (state a) as [st|] eqn:Es; [|discriminate].
    destruct (wa_trigger_volume a) as [volume|] eqn:Ev; [|discriminate].
    simpl in He. injection He as <-. exists a, volume. simpl.
    repeat split; try reflexivity; tauto.
  - intros k e Hk.
    destruct (collect_get _ _ _ _ _ Eso Hk) as (a & Hin & Hid & He).
    rewrite F6 in Hin. apply filter_In in Hin.
    injection He as <-. exists a. simpl. repeat split; tauto.
Qed.

End DynamicObjects.

Arguments WorldActor F : clear implicits.
Arguments RoadMap F : clear implicits.
Arguments Split F : clear implicits.
Arguments StopRecord F : clear implicits.
Arguments TrafficLightRecord F : clear implicits.
Arguments BodyRecord F : clear implicits.
Arguments HeroRecord F : clear implicits.
Arguments SpeedLimitRecord F : clear implicits.
Arguments StaticRecord F : clear implicits.
Arguments Snapshot F : clear implicits.

Arguments contains (sub s)%_string.
Arguments split_on sep%_char s%_string.
Arguments attribute k%_string d.

(** ** A street of the town *)

(** [int] on plain decimal digits. *)
Fixpoint digits (acc : Z) (s : String.string) : option Z :=
  match s with
  | String.EmptyString => Some acc
  | String.String c s' =>
      let n := Z.of_nat (Ascii.nat_of_ascii c) - 48 in
      if (0 <=? n) && (n <=? 9) then digits (10 * acc + n) s' else None
  end.

#[export] Instance DecimalInt : Builtins := {|
  int_of_str := fun s =>
    match s with
    | String.EmptyString => None
    | _ => digits 0 s
    end
|}.

Definition box (ex ey : Q) : BoundingBox Q :=
  {| bb_location := {| x := 0%Q; y := 0%Q; z := 0%Q |};
     extent := {| x := ex; y := ey; z := 1%Q |} |}.

Definition at_ (px py : Q) : Transform Q :=
  {| location := {| x := px; y := py; z := 0%Q |};
     rotation := {| pitch := 0%Q; yaw := 0%Q; roll := 0%Q |} |}.

Definition actor_of (i : Z) (kind : String.string) (role : String.string)
    (px py : Q) (bb tv : option (BoundingBox Q)) (st : option Z)
    : WorldActor Q :=
  {| wa_id := i; type_id := kind;
     attributes := [("role_name"%string, role)];
     wa_transform := at_ px py;
     get_location := location (at_ px py);
     bounding_box := bb; wa_trigger_volume := tv; state := st |}.

Arguments actor_of i%_Z (kind role)%_string (px py)%_Q bb tv st.

Definition car : WorldActor Q :=
  actor_of 1 "vehicle.tesla.model3" "hero" 10%Q 20%Q (Some (box 2%Q 1%Q))
           None None.
Definition bus : WorldActor Q :=
  actor_of 2 "vehicle.mitsubishi.fusorosa" "autopilot" 30%Q 20%Q
           (Some (box 5%Q 1%Q)) None None.
Definition pedestrian : WorldActor Q :=
  actor_of 3 "walker.pedestrian.0001" "" 0%Q 5%Q (Some (box 1%Q 1%Q))
           None None.
Definition light : WorldActor Q :=
  actor_of 4 "traffic.traffic_light" "" 40%Q 0%Q None (Some (box 1%Q 2%Q))
           (Some 2).
Definition limit30 : WorldActor Q :=
  actor_of 5 "traffic.speed_limit.30" "" 50%Q 0%Q None (Some (box 1%Q 1%Q))
           None.
Definition stop_sign_actor : WorldActor Q :=
  actor_of 6 "traffic.stop" "" 60%Q 0%Q None (Some (box 1%Q 2%Q)) None.
Definition bench : WorldActor Q :=
  actor_of 7 "static.prop.bench" "" 70%Q 0%Q (Some (box 1%Q 1%Q)) None None.
Definition camera : WorldActor Q :=
  actor_of 8 "sensor.camera.rgb" "" 10%Q 20%Q None None None.
Definition bus_stop : WorldActor Q :=
  actor_of 9 "static.prop.busstop" "" 80%Q 0%Q (Some (box 1%Q 1%Q)) None None.

(** A vehicle that was spawned without a role. *)
Definition cart : WorldActor Q :=
  {| wa_id := 10; type_id := "vehicle.cart"%string; attributes := [];
     wa_transform := at_ 0%Q 0%Q; get_location := location (at_ 0%Q 0%Q);
     bounding_box := Some (box 1%Q 1%Q); wa_trigger_volume := None;
     state := None |}.

Definition street : list (WorldActor Q) :=
  [car; camera; light; pedestrian; bus; limit30; bench; stop_sign_actor].

Definition town_roads : RoadMap Q :=
  {| road_map := town; get_waypoint := fun _ => Some w11 |}.

Definition street_snapshot : Snapshot Q :=
  Eval vm_compute in
    match get_dynamic_objects 0 street town_roads with
    | Returns snap => snap
    | Raises _ =>
        {| snap_vehicles := []; snap_hero_vehicle := None; snap_walkers := [];
           snap_traffic_lights := []; snap_stop_signs := [];
           snap_speed_limits := []; snap_static_obstacles := [] |}
    end.

Lemma street_snapshot_taken :
  get_dynamic_objects 0 street town_roads = Returns street_snapshot.
Proof. vm_compute. reflexivity. Qed.

Lemma street_ids_distinct : NoDup (map wa_id street).
Proof.
  simpl. repeat (constructor; [simpl; intuition discriminate|]). constructor.
Qed.

Example street_split :
  map wa_id (vehicles (_split_actors street)) = [1; 2] /\
  map wa_id (traffic_lights (_split_actors street)) = [4] /\
  map wa_id (speed_limits (_split_actors street)) = [5] /\
  map wa_id (walkers (_split_actors street)) = [3] /\
  map wa_id (stops (_split_actors street)) = [6] /\
  map wa_id (static_obstacles (_split_actors street)) = [7].
Proof. vm_compute. repeat split. Qed.

Example street_car_entry :
  Dict.get 1 (snap_vehicles street_snapshot)
  = Some {| body_id := 1;
            body_position := [20%Q; 10%Q; 0%Q];
            body_orientation := [0%Q; 0%Q; 0%Q];
            body_bounding_box :=
              [[8%Q; 19%Q; 0%Q]; [12%Q; 19%Q; 0%Q]; [12%Q; 21%Q; 0%Q];
               [8%Q; 21%Q; 0%Q]] |}.
Proof. reflexivity. Qed.

Example street_speed_limit :
  option_map sl_speed (Dict.get 5 (snap_speed_limits street_snapshot))
  = Some 30.
Proof. reflexivity. Qed.

Example split_words :
  split_on "." "traffic.speed_limit.30" = ["traffic"; "speed_limit"; "30"]%string
  /\ split_on "." "" = [""%string] /\ split_on "." "a..b" = ["a"; ""; "b"]%string.
Proof. repeat split. Qed.

(** ** The theorems at the street *)

Lemma vehicle_without_role_name_raises_witness :
  get_dynamic_objects 0 (street ++ [cart]) town_roads = Raises Py.KeyError.
Proof.
  apply (vehicle_without_role_name_raises 0 (street ++ [cart]) town_roads
           cart).
  - simpl. tauto.
  - reflexivity.
  - reflexivity.
Defined.

Lemma stop_in_the_name_makes_a_stop_sign_witness :
  In bus_stop (stops (_split_actors (bus_stop :: street))) /\
  ~ In bus_stop (static_obstacles (_split_actors (bus_stop :: street))) /\
  get_dynamic_objects 0 (bus_stop :: street) town_roads
  = Raises Py.AttributeError.
Proof.
  destruct (stop_in_the_name_makes_a_stop_sign 0 (bus_stop :: street)
              town_roads bus_stop (or_introl eq_refl)
              eq_refl eq_refl eq_refl eq_refl eq_refl)
    as (Hstop & Hstatic & Hraise).
  split; [exact Hstop|]. split; [exact Hstatic|].
  apply Hraise; [reflexivity|].
  intros v Hin Htag. simpl in Hin.
  repeat (destruct Hin as [<-|Hin]; [discriminate|]). destruct Hin.
Defined.

Lemma snapshot_taken_iff_ready_witness :
  snapshot_ready 0 street town_roads /\
  exists snap, get_dynamic_objects 0 street town_roads = Returns snap.
Proof.
  assert (Hready : snapshot_ready 0 street town_roads).
  { apply (proj1 (snapshot_taken_iff_ready 0 street town_roads)).
    exists street_snapshot. exact street_snapshot_taken. }
  split; [exact Hready|].
  exact (proj2 (snapshot_taken_iff_ready 0 street town_roads) Hready).
Defined.

Lemma snapshot_keys_are_actor_ids_witness :
  Dict.keys (snap_vehicles street_snapshot) = [1; 2] /\
  Dict.keys (snap_static_obstacles street_snapshot) = [7].
Proof.
  destruct (snapshot_keys_are_actor_ids 0 street town_roads street_snapshot
              street_snapshot_taken)
    as ((_ & Hv) & _ & _ & _ & _ & (_ & Hso)).
  split; [exact (Hv street_ids_distinct) | exact (Hso street_ids_distinct)].
Defined.

Lemma body_entries_come_from_actors_witness :
  (exists a, In a street /\ wa_id a = 3 /\ bounding_box a <> None) /\
  exists e, body_entry town_roads bus = Returns e /\
            Dict.get 2 (snap_vehicles street_snapshot) = Some e.
Proof.
  destruct (body_entries_come_from_actors 0 street town_roads street_snapshot
              street_snapshot_taken) as (Hentry & Hlast).
  split.
  - destruct (Dict.get 3 (snap_walkers street_snapshot)) as [e|] eqn:E;
      [|discriminate E].
    destruct (Hentry 3 e (or_intror E)) as (a & b & Hin & Hid & Hb & _).
    exists a. split; [exact Hin|]. split; [exact Hid|]. rewrite Hb.
    discriminate.
  - apply (Hlast [car] bus []); [reflexivity | intros []].
Defined.

Lemma hero_is_a_vehicle_with_the_role_witness :
  exists hero, snap_hero_vehicle street_snapshot = Some hero /\
               hero_id hero = 1 /\ hero_road_id hero = 1 /\
               hero_lane_id hero = 1.
Proof.
  destruct (snap_hero_vehicle street_snapshot) as [hero|] eqn:E;
    [|discriminate E].
  destruct (proj2 (hero_is_a_vehicle_with_the_role 0 street town_roads
                     street_snapshot street_snapshot_taken) hero E)
    as (v & wp & Hin & _ & Hrole & Hwp & Hid & _ & Hroad & Hlane).
  exists hero. split; [reflexivity|].
  injection Hwp as <-. rewrite Hid, Hroad, Hlane.
  simpl in Hin.
  repeat (destruct Hin as [<-|Hin]; [try discriminate Hrole|]);
    [repeat split | destruct Hin].
Defined.

Lemma speed_is_the_third_word_witness :
  speed_of "traffic.speed_limit.30"%string = Returns 30 /\
  speed_of "traffic.speed_limit.30.extra"%string = Returns 30.
Proof.
  exact (proj1 speed_is_the_third_word "traffic" "speed_limit" "30" "extra"
           eq_refl eq_refl eq_refl)%string.
Defined.

Lemma sign_entries_come_from_actors_witness :
  (exists e, Dict.get 6 (snap_stop_signs street_snapshot) = Some e /\
             length (stop_trigger_volume e) = 5%nat) /\
  exists e, Dict.get 4 (snap_traffic_lights street_snapshot) = Some e /\
            tl_state e = 2.
Proof.
  destruct (sign_entries_come_from_actors 0 street town_roads street_snapshot
              street_snapshot_taken) as (Hstop & Hlight & _).
  split.
  - destruct (Dict.get 6 (snap_stop_signs street_snapshot)) as [e|] eqn:E;
      [|discriminate E].
    exists e. split; [reflexivity|].
    destruct (Hstop 6 e E) as (a & volume & _ & _ & _ & _ & _ & _ & Hlen).
    exact Hlen.
  - destruct (Dict.get 4 (snap_traffic_lights street_snapshot)) as [e|] eqn:E;
      [|discriminate E].
    exists e. split; [reflexivity|].
    destruct (Hlight 4 e E) as (a & volume & Hin & Hid & _ & Hst & _).
    simpl in Hin.
    repeat (destruct Hin as [<-|Hin]; [try discriminate Hid|]);
      [|destruct Hin].
    simpl in Hst. congruence.
Defined.
